(** * Label transfer with regularized Optimal Transport

    A shallow embedding of
    [geomloss/examples/optimal_transport/plot_optimal_transport_labels.py].

    Numbers are modelled as real numbers ([R]): every tensor entry of the
    script is a real, [torch] arithmetic is exact arithmetic, and the range of
    the 32-bit float type the script selects ([torch.FloatTensor]) appears
    only through the constant [FLT_MAX].  A 2-D tensor is the list of its
    rows.  The KeOps formula string of the script is embedded as a syntax
    tree with the evaluation rules of KeOps' [generic_sum]. *)

From Stdlib Require Import String Reals Lra Lia ZArith List Permutation.
Import ListNotations.
Open Scope R_scope.

(** ** Tensors *)

Definition vec := list R.
Definition tensor := list vec.

Fixpoint zipWith (op : R -> R -> R) (u v : vec) : vec :=
  match u, v with
  | a :: u', b :: v' => op a b :: zipWith op u' v'
  | _, _ => []
  end.

Definition vadd (u v : vec) : vec := zipWith Rplus u v.
Definition vscale (c : R) (v : vec) : vec := map (Rmult c) v.
Definition zeros (d : nat) : vec := repeat 0 d.

(** [t.sum()] over one row. *)
Definition vsum (v : vec) : R := fold_right Rplus 0 v.

(** [F_i.view(-1,1)]: a length-N vector seen as an N x 1 tensor. *)
Definition view_col (F : vec) : tensor := map (fun a => [a]) F.

(** [t / M] for a Python integer [M]. *)
Definition tdiv (t : tensor) (M : nat) : tensor :=
  map (map (fun a => a / INR M)) t.

(** [t.sum(1)]: the sum of every row. *)
Definition sum1 (t : tensor) : vec := map vsum t.

(** [(v - 1).abs().mean()]. *)
Definition mean (v : vec) : R := vsum v / INR (length v).
Definition abs_dev (v : vec) : vec := map (fun a => Rabs (a - 1)) v.

(** ** KeOps formulas *)

Module KeOps.

(** [Vi(d)]: one vector of size d per line; [Vj(d)]: one per column;
    [Pm(d)]: a parameter. *)
Inductive category := Vi | Vj | Pm.

Record alias := Alias { a_name : string; a_cat : category; a_dim : nat }.

Inductive formula :=
| Var (x : string)
| IntCst (n : Z)
| IntInv (n : Z)
| Exp (a : formula)
| Log (a : formula)
| Sqrt (a : formula)
| Square (a : formula)
| Pow (a : formula) (n : nat)
| Norm2 (a : formula)
| SqNorm2 (a : formula)
| SqDist (a b : formula)
| Add (a b : formula)
| Subtract (a b : formula)
| Mult (a b : formula)
| Divide (a b : formula).

Declare Scope keops_scope.
Delimit Scope keops_scope with keops.
Bind Scope keops_scope with formula.
Notation "a + b" := (Add a b) : keops_scope.
Notation "a - b" := (Subtract a b) : keops_scope.
Notation "a * b" := (Mult a b) : keops_scope.
Notation "a / b" := (Divide a b) : keops_scope.

(** Binary operations act coordinate by coordinate on operands of the same
    size; an operand of size 1 is broadcast.  Any other pair of sizes is a
    compilation error. *)
Definition broadcast (op : R -> R -> R) (u v : vec) : option vec :=
  if (length u =? length v)%nat then Some (zipWith op u v)
  else match u, v with
       | [a], _ => Some (map (op a) v)
       | _, [b] => Some (map (fun a => op a b) u)
       | _, _ => None
       end.

Definition sqdist (u v : vec) : R :=
  vsum (zipWith (fun a b => (a - b) * (a - b)) u v).

(** An environment binds every alias to the tensor passed for it. *)
Definition env := list (alias * tensor).

Fixpoint lookup (x : string) (rho : env) : option (alias * tensor) :=
  match rho with
  | [] => None
  | (a, t) :: rho' => if String.eqb x (a_name a) then Some (a, t) else lookup x rho'
  end.

Definition bind {A B} (o : option A) (k : A -> option B) : option B :=
  match o with Some a => k a | None => None end.

Notation "x <- o ;; k" := (bind o (fun x => k))
  (at level 61, o at next level, right associativity).

Definition check_dim (d : nat) (v : vec) : option vec :=
  if (length v =? d)%nat then Some v else None.

(** The value of a variable at line [i] and column [j]. *)
Definition var_at (rho : env) (i j : nat) (x : string) : option vec :=
  b <- lookup x rho ;;
  v <- nth_error (snd b)
         (match a_cat (fst b) with Vi => i | Vj => j | Pm => 0%nat end) ;;
  check_dim (a_dim (fst b)) v.

Fixpoint eval (rho : env) (i j : nat) (F : formula) : option vec :=
  match F with
  | Var x => var_at rho i j x
  | IntCst n => Some [IZR n]
  | IntInv n => Some [/ IZR n]
  | Exp a => v <- eval rho i j a ;; Some (map exp v)
  | Log a => v <- eval rho i j a ;; Some (map ln v)
  | Sqrt a => v <- eval rho i j a ;; Some (map sqrt v)
  | Square a => v <- eval rho i j a ;; Some (map (fun r => r * r) v)
  | Pow a n => v <- eval rho i j a ;; Some (map (fun r => r ^ n) v)
  | Norm2 a => v <- eval rho i j a ;; Some [sqrt (vsum (map (fun r => r * r) v))]
  | SqNorm2 a => v <- eval rho i j a ;; Some [vsum (map (fun r => r * r) v)]
  | SqDist a b =>
      u <- eval rho i j a ;; v <- eval rho i j b ;;
      if (length u =? length v)%nat then Some [sqdist u v] else None
  | Add a b => u <- eval rho i j a ;; v <- eval rho i j b ;; broadcast Rplus u v
  | Subtract a b => u <- eval rho i j a ;; v <- eval rho i j b ;; broadcast Rminus u v
  | Mult a b => u <- eval rho i j a ;; v <- eval rho i j b ;; broadcast Rmult u v
  | Divide a b => u <- eval rho i j a ;; v <- eval rho i j b ;; broadcast Rdiv u v
  end.

(** The arguments on which the exponential is evaluated at the pair (i,j),
    innermost first. *)
Fixpoint exp_args (rho : env) (i j : nat) (F : formula) : list R :=
  match F with
  | Var _ | IntCst _ | IntInv _ => []
  | Exp a =>
      exp_args rho i j a ++ match eval rho i j a with Some v => v | None => [] end
  | Log a | Sqrt a | Square a | Pow a _ | Norm2 a | SqNorm2 a => exp_args rho i j a
  | SqDist a b | Add a b | Subtract a b | Mult a b | Divide a b =>
      exp_args rho i j a ++ exp_args rho i j b
  end.

(** Does the formula raise something to a power through the generic
    operations ([Pow], [Sqrt], [Norm2]) ? *)
Fixpoint uses_generic_power (F : formula) : bool :=
  match F with
  | Var _ | IntCst _ | IntInv _ => false
  | Pow _ _ | Sqrt _ | Norm2 _ => true
  | Exp a | Log a | Square a | SqNorm2 a => uses_generic_power a
  | SqDist a b | Add a b | Subtract a b | Mult a b | Divide a b =>
      uses_generic_power a || uses_generic_power b
  end.

(** Number of lines (or columns) of a call: the common number of rows of the
    arguments of that category. *)
Fixpoint rows_of (c : category) (rho : env) : option (option nat) :=
  match rho with
  | [] => Some None
  | (a, t) :: rho' =>
      r <- rows_of c rho' ;;
      match a_cat a, c with
      | Vi, Vi | Vj, Vj =>
          match r with
          | None => Some (Some (length t))
          | Some n => if (n =? length t)%nat then Some r else None
          end
      | _, _ => Some r
      end
  end.

Definition size_of (c : category) (rho : env) : option nat :=
  r <- rows_of c rho ;; Some (match r with Some n => n | None => 0%nat end).

(** The sum over [js] of the formula at line [i] (resp. column [i] when
    [swap] is set), accumulated from zero in the order of [js]. *)
Definition reduce (rho : env) (F : formula) (d : nat) (swap : bool)
    (i : nat) (js : list nat) : option vec :=
  fold_left
    (fun acc j =>
       s <- acc ;;
       v <- (if swap then eval rho j i F else eval rho i j F) ;;
       v' <- check_dim d v ;;
       Some (vadd s v'))
    js (Some (zeros d)).

Fixpoint sequence {A} (l : list (option A)) : option (list A) :=
  match l with
  | [] => Some []
  | o :: l' => a <- o ;; r <- sequence l' ;; Some (a :: r)
  end.

Fixpoint zip_env (aliases : list alias) (args : list tensor) : option env :=
  match aliases, args with
  | [], [] => Some []
  | a :: aliases', t :: args' => rho <- zip_env aliases' args' ;; Some ((a, t) :: rho)
  | _, _ => None
  end.

(** [generic_sum(formula, output, *aliases)] returns the routine that maps
    the tensors passed for the aliases to the tensor of the sums: one row per
    line for a [Vi] output (sum over the columns), one row per column for a
    [Vj] output (sum over the lines). *)
Definition generic_sum (F : formula) (out : alias) (aliases : list alias)
    (args : list tensor) : option tensor :=
  rho <- zip_env aliases args ;;
  nx <- size_of Vi rho ;;
  ny <- size_of Vj rho ;;
  match a_cat out with
  | Vi => sequence (map (fun i => reduce rho F (a_dim out) false i (seq 0 ny)) (seq 0 nx))
  | Vj => sequence (map (fun j => reduce rho F (a_dim out) true j (seq 0 nx)) (seq 0 ny))
  | Pm => None
  end.

End KeOps.

Import KeOps.

(** ** The script *)

(** Lines 172-180: the KeOps kernel. *)
Definition cost_term : formula :=
  (IntInv 2 * SqDist (Var "X_i") (Var "Y_j"))%keops.

Definition transfer_formula : formula :=
  (Exp ((Var "F_i" + Var "G_j" - cost_term) / Var "E") * Var "L_j")%keops.

Definition transfer_aliases : list alias :=
  [ Alias "E" Pm 1; Alias "X_i" Vi 2; Alias "Y_j" Vj 2;
    Alias "F_i" Vi 1; Alias "G_j" Vj 1; Alias "L_j" Vj 3 ].

Definition transfer : list tensor -> option tensor :=
  generic_sum transfer_formula (Alias "Lab" Vi 3) transfer_aliases.

(** Lines 183-184 (and 214-215): the kernel applied to the data, over [M]. *)
Definition apply_transfer (E : R) (X_i Y_j : tensor) (F_i G_j : vec)
    (l_j : tensor) (M : nat) : option tensor :=
  option_map (fun t => tdiv t M)
    (transfer [ [[E]]; X_i; Y_j; view_col F_i; view_col G_j; l_j ]).

(** ** The label transfer of the specification *)

(** The Euclidean norm and the ground cost [(1/p) |x - y|^p]. *)
Definition vsub (u v : vec) : vec := zipWith Rminus u v.
Definition norm2 (v : vec) : R := sqrt (vsum (map (fun r => r * r) v)).
Definition CostMetric (p : nat) (x y : vec) : R := / INR p * norm2 (vsub x y) ^ p.

(** Sum of a list of vectors of size [d]. *)
Definition vsum_list (d : nat) (l : list vec) : vec := fold_right vadd (zeros d) l.

(** The Gibbs weight [exp((f_i + g_j - C(x_i,y_j)) / eps)] of the pair (i,j). *)
Definition gibbs (p : nat) (eps : R) (X Y : tensor) (f g : vec) (i j : nat) : R :=
  exp ((nth i f 0 + nth j g 0 - CostMetric p (nth i X []) (nth j Y [])) / eps).

(** [(1/M) . sum_j exp((f_i + g_j - C(x_i,y_j)) / eps) . L_j] *)
Definition transfer_spec (eps : R) (X Y : tensor) (f g : vec) (L : tensor)
    (i : nat) : vec :=
  vscale (/ INR (length Y))
    (vsum_list 3
       (map (fun j => vscale (gibbs 2 eps X Y f g i j) (nth j L []))
            (seq 0 (length Y)))).

(** Shape of the data handed to the kernel: [N] points of the plane with one
    potential each, [M] points of the plane with one potential and one label
    of size 3 each. *)
Record well_shaped (X Y : tensor) (F G : vec) (L : tensor) : Prop := {
  ws_X : Forall (fun x => length x = 2%nat) X;
  ws_Y : Forall (fun y => length y = 2%nat) Y;
  ws_F : length F = length X;
  ws_G : length G = length Y;
  ws_L : Forall (fun l => length l = 3%nat) L;
  ws_LY : length L = length Y
}.


(** The environment of the call [transfer(E, X_i, Y_j, F_i, G_j, L_j)]. *)
Definition transfer_env (E : R) (X Y : tensor) (F G : vec) (L : tensor) : env :=
  [ (Alias "E" Pm 1, [[E]]); (Alias "X_i" Vi 2, X); (Alias "Y_j" Vj 2, Y);
    (Alias "F_i" Vi 1, view_col F); (Alias "G_j" Vj 1, view_col G);
    (Alias "L_j" Vj 3, L) ].

(** The argument of the exponential of [transfer_formula] at the pair (i,j). *)
Definition exponent (E : R) (X Y : tensor) (F G : vec) (i j : nat) : R :=
  (nth i F 0 + nth j G 0 - / 2 * sqdist (nth i X []) (nth j Y [])) / E.

(** ** Range of the tensors' number type *)

(** The largest finite value of the 32-bit floats of [torch.FloatTensor]:
    [(2 - 2^-23) . 2^127]. *)
Definition FLT_MAX : R := (2 - / 2 ^ 23) * 2 ^ 127.

(** Every exponential evaluated by the kernel on the data stays in range. *)
Definition exp_in_range (E : R) (X Y : tensor) (F G : vec) (L : tensor) : Prop :=
  forall i j, (i < length X)%nat -> (j < length Y)%nat ->
    Forall (fun a => exp a <= FLT_MAX)
           (exp_args (transfer_env E X Y F G L) i j transfer_formula).

(** ** The script, statement by statement *)

Module Script.

(** What the script does to the outside: the calls of the KeOps kernel, with
    their arguments, and the numbers it prints. *)
Record world := World { kernel_calls : list (list tensor); stdout : list R }.

Definition io (A : Type) : Type := world -> option (A * world).

Definition ret {A} (a : A) : io A := fun w => Some (a, w).

Definition seq_io {A B} (m : io A) (k : A -> io B) : io B :=
  fun w => match m w with Some (a, w') => k a w' | None => None end.

Notation "x <-- m ;; k" := (seq_io m (fun x => k))
  (at level 61, m at next level, right associativity).

Definition call_transfer (args : list tensor) : io tensor :=
  fun w =>
    match transfer args with
    | Some t => Some (t, World (kernel_calls w ++ [args]) (stdout w))
    | None => None
    end.

Definition print (r : R) : io unit :=
  fun w => Some (tt, World (kernel_calls w) (stdout w ++ [r])).

(** The keyword arguments of [SamplesLoss]. *)
Record SamplesLoss_args := {
  loss : string;
  p : nat;
  blur_arg : R;
  reach : option R;
  scaling : R;
  debias : bool;
  potentials : bool
}.

(** Line 161. *)
Definition blur : R := 5 / 100.

(** Line 162. *)
Definition balanced_args : SamplesLoss_args :=
  {| loss := "sinkhorn"; p := 2; blur_arg := blur; reach := None;
     scaling := 9 / 10; debias := false; potentials := true |}.

(** Line 210. *)
Definition unbalanced_args : SamplesLoss_args :=
  {| loss := "sinkhorn"; p := 2; blur_arg := blur; reach := Some (2 / 10);
     scaling := 9 / 10; debias := false; potentials := true |}.

Section Run.
(** [geomloss.SamplesLoss], which the script imports, and the samples that
    [draw_samples] returns. *)
Variable SamplesLoss : SamplesLoss_args -> tensor -> tensor -> vec * vec.
Variable use_cuda : bool.
Variables X_i Y_j l_j : tensor.

(** Line 83. *)
Definition N : nat := if use_cuda then 10000 else 500.
Definition M : nat := if use_cuda then 10000 else 500.

(** Lines 162-187. *)
Definition balanced_run : io tensor :=
  let OT_solver := SamplesLoss balanced_args in
  let '(F_i, G_j) := OT_solver X_i Y_j in
  t <-- call_transfer [ [[blur ^ 2]]; X_i; Y_j; view_col F_i; view_col G_j; l_j ] ;;
  let labels_i := tdiv t M in
  _ <-- print (mean (abs_dev (sum1 labels_i))) ;;
  ret labels_i.

(** Lines 210-218. *)
Definition unbalanced_run : io tensor :=
  let OT_solver := SamplesLoss unbalanced_args in
  let '(F_i, G_j) := OT_solver X_i Y_j in
  t <-- call_transfer [ [[blur ^ 2]]; X_i; Y_j; view_col F_i; view_col G_j; l_j ] ;;
  let labels_i := tdiv t M in
  _ <-- print (mean (abs_dev (sum1 labels_i))) ;;
  ret labels_i.

(** The two runs in sequence; the second rebinds [labels_i]. *)
Definition main : io (tensor * tensor) :=
  balanced <-- balanced_run ;;
  unbalanced <-- unbalanced_run ;;
  ret (balanced, unbalanced).
End Run.

(** The temperature of a recorded kernel call: its first argument. *)
Definition temperature_of (args : list tensor) : option tensor := hd_error args.

(** The world in which the script starts. *)
Definition start : world := World [] [].

End Script.

(** ** Columns and tiles *)

(** A column of the pairwise matrix: a point [y_j] of the second cloud with
    its per-column fields, the potential [g_j], the weight [b_j] and the
    label [L_j]. *)
Record column := Column { c_y : vec; c_g : R; c_b : R; c_l : vec }.

Definition Ys (cols : list column) : tensor := map c_y cols.
Definition Gs (cols : list column) : vec := map c_g cols.
Definition Ls (cols : list column) : tensor := map c_l cols.

Definition column0 : column := Column [] 0 0 [].

(** Columns of the shape the kernel expects: points of the plane, labels of
    size 3. *)
Definition cols_ok (cols : list column) : Prop :=
  Forall (fun c => length (c_y c) = 2%nat /\ length (c_l c) = 3%nat) cols.

(** The kernel of the script on the columns [cols]. *)
Definition transfer_cols (E : R) (X : tensor) (F : vec) (cols : list column)
    : option tensor :=
  transfer [ [[E]]; X; Ys cols; view_col F; view_col (Gs cols); Ls cols ].

(** Line [i] of the weighted sum over the columns [cols]. *)
Definition row_sum (E : R) (X : tensor) (F : vec) (i : nat) (cols : list column)
    : vec :=
  vsum_list 3
    (map (fun c =>
            vscale (exp ((nth i F 0 + c_g c - / 2 * sqdist (nth i X []) (c_y c)) / E))
                   (c_l c))
         cols).

(** Sum of two tensors, line by line. *)
Fixpoint tadd (s t : tensor) : tensor :=
  match s, t with
  | u :: s', v :: t' => vadd u v :: tadd s' t'
  | _, _ => []
  end.

(** The kernel run tile after tile, the partial sums accumulated from zero. *)
Definition transfer_tiled (E : R) (X : tensor) (F : vec)
    (tiles : list (list column)) : option tensor :=
  fold_left
    (fun acc tile =>
       s <- acc ;; t <- transfer_cols E X F tile ;; Some (tadd s t))
    tiles (Some (repeat (zeros 3) (length X))).

(** Modelled from the spec: the softmin reduction of the solver
    ([geomloss.SamplesLoss] is not part of the sources at hand), section 4.2:
    for a line at the point [x],
    [- eps . log (sum_j exp((g_j - C(x,y_j)) / eps) . b_j)]. *)
Definition softmin_mass (p : nat) (eps : R) (x : vec) (cols : list column) : R :=
  vsum (map (fun c => exp ((c_g c - CostMetric p x (c_y c)) / eps) * c_b c) cols).

Definition softmin (p : nat) (eps : R) (x : vec) (cols : list column) : R :=
  - eps * ln (softmin_mass p eps x cols).

(** Modelled from the spec: two partial softmin reductions are accumulated in
    the log domain, [- eps . log (exp(-s1/eps) + exp(-s2/eps))]. *)
Definition softmin_combine (eps s1 s2 : R) : R :=
  - eps * ln (exp (- s1 / eps) + exp (- s2 / eps)).

Definition softmin_tiled (p : nat) (eps : R) (x : vec)
    (tile : list column) (tiles : list (list column)) : R :=
  fold_left (fun acc t => softmin_combine eps acc (softmin p eps x t))
            tiles (softmin p eps x tile).


(** ** The solver of the specification *)

Module Sinkhorn.

(** Modelled from the spec: the solver ([geomloss.SamplesLoss]) is not among
    the sources at hand.  The definitions of this module follow sections 3,
    4.3 and 7 of the specification; the tolerance and the iteration cap,
    which the specification mentions without a value, are settings. *)

Record PointCloud := { points : tensor; weights : vec }.

Inductive error := EmptyInput | DimensionMismatch | NumericOverflow.

Record settings := {
  p : nat;
  blur : R;
  scaling : R;
  reach : option R;
  debias : bool;
  tol : R;
  max_iter : nat
}.

Record potentials := { f : vec; g : vec; converged : bool }.

Record solution := {
  cross : potentials;
  self_a : option potentials;
  self_b : option potentials
}.

Definition Rleb (a b : R) : bool := if Rle_dec a b then true else false.
Definition Rltb (a b : R) : bool := if Rlt_dec a b then true else false.

(** The columns of a cloud with a potential over it. *)
Definition columns (b : PointCloud) (pot : vec) : list column :=
  map (fun ybg => Column (fst (fst ybg)) (snd ybg) (snd (fst ybg)) [])
      (combine (combine (points b) (weights b)) pot).

(** The damping of an update: 1 for balanced transport,
    [reach^2 / (reach^2 + eps)] otherwise. *)
Definition damping (s : settings) (eps : R) : R :=
  match reach s with
  | None => 1
  | Some r => r * r / (r * r + eps)
  end.

(** One softmin update of the potential over [a] from the potential [pot]
    over [b]. *)
Definition update (s : settings) (eps : R) (a b : PointCloud) (pot : vec) : vec :=
  map (fun x => damping s eps * softmin (p s) eps x (columns b pot)) (points a).

(** Largest change of a potential. *)
Definition change (u v : vec) : R :=
  fold_right Rmax 0 (zipWith (fun a b => Rabs (a - b)) u v).

(** The spatial extent of the two clouds: the largest distance between two
    of their points. *)
Definition diameter (a b : PointCloud) : R :=
  let pts := points a ++ points b in
  fold_right Rmax 0 (flat_map (fun x => map (fun y => norm2 (vsub x y)) pts) pts).

(** The loop: a sweep updates [f] from [g], then [g] from the new [f].  The
    temperature decreases by the factor [scaling] down to the target
    [blur^p]; at the target the loop stops once both potentials change by at
    most [tol].  At most [fuel] sweeps are run; the second component counts
    them. *)
Fixpoint iterate (s : settings) (a b : PointCloud) (fuel : nat) (eps : R)
    (fg : vec * vec) (sweeps : nat) : potentials * nat :=
  match fuel with
  | O => ({| f := fst fg; g := snd fg; converged := false |}, sweeps)
  | S fuel' =>
      let f' := update s eps a b (snd fg) in
      let g' := update s eps b a f' in
      let target := blur s ^ p s in
      if Rleb eps target then
        if (Rleb (change f' (fst fg)) (tol s) && Rleb (change g' (snd fg)) (tol s))%bool
        then ({| f := f'; g := g'; converged := true |}, S sweeps)
        else iterate s a b fuel' target (f', g') (S sweeps)
      else iterate s a b fuel' (Rmax target (eps * scaling s)) (f', g') (S sweeps)
  end.

Definition run (s : settings) (a b : PointCloud) (sweeps : nat) : potentials * nat :=
  iterate s a b (max_iter s) (Rmax (blur s ^ p s) (diameter a b ^ p s))
          (map (fun _ => 0) (points a), map (fun _ => 0) (points b)) sweeps.

Definition same_dim (a b : PointCloud) : bool :=
  match points a with
  | [] => true
  | x :: _ =>
      forallb (fun y => (length y =? length x)%nat) (points a ++ points b)
  end.

Definition aligned (a : PointCloud) : bool :=
  (length (weights a) =? length (points a))%nat.

(** [solve]: the checks of section 7 in the order of its taxonomy, then the
    loop, and with [debias] the two self-transport problems.  The result
    comes with the number of sweeps that were run. *)
Definition solve (s : settings) (a b : PointCloud) : (error + solution) * nat :=
  if ((length (points a) =? 0)%nat || (length (points b) =? 0)%nat)%bool then
    (inl EmptyInput, 0%nat)
  else if negb (same_dim a b && aligned a && aligned b)%bool then
    (inl DimensionMismatch, 0%nat)
  else if negb (Rltb 0 (blur s) && Rltb 0 (scaling s) && Rltb (scaling s) 1)%bool then
    (inl NumericOverflow, 0%nat)
  else
    let '(ab, n1) := run s a b 0 in
    if debias s then
      let '(aa, n2) := run s a a n1 in
      let '(bb, n3) := run s b b n2 in
      (inr {| cross := ab; self_a := Some aa; self_b := Some bb |}, n3)
    else
      (inr {| cross := ab; self_a := None; self_b := None |}, n1).

End Sinkhorn.

(** ** Display of the labels *)

(** [t.clamp(lo, hi)], lines 196 and 227. *)
Definition clamp (lo hi : R) (t : tensor) : tensor :=
  map (map (fun a => Rmin (Rmax a lo) hi)) t.

(** Entries that are not negative. *)
Definition nonneg (t : tensor) : Prop := Forall (Forall (fun a => 0 <= a)) t.

(** ** Images and samples *)

(** What [imageio.imread] returns: rows of pixels of channels, as bytes. *)
Definition raw_image := list (list (list Z)).

(** An image with real channels. *)
Definition image := list (list vec).

(** Lines 34-36: [imread(fname)[::-1,:,:3] / 255.], the rows from the last to
    the first, the first three channels of every pixel, over 255. *)
Definition load_image (raw : raw_image) : image :=
  map (map (fun px => map (fun b => IZR b / 255) (firstn 3 px))) (rev raw).

(** [A.shape[0]] and [A.shape[1]]. *)
Definition shape0 {T} (A : list (list T)) : nat := length A.
Definition shape1 {T} (A : list (list T)) : nat := length (hd [] A).

(** An array of [H] rows, [W] columns and [C] channels. *)
Definition rect {T} (H W C : nat) (A : list (list (list T))) : Prop :=
  length A = H
  /\ Forall (fun row => length row = W /\ Forall (fun px => length px = C) row) A.

Definition arange (n : nat) : list nat := seq 0 n.

(** [np.meshgrid(a, b)]: two arrays of [len(b)] rows and [len(a)] columns,
    the first with [a] on every row, the second with [b] down every column. *)
Definition meshgrid (a b : list nat) : list (list nat) * list (list nat) :=
  (map (fun _ => a) b, map (fun y => map (fun _ => y) a) b).

Definition ravel {T} (m : list (list T)) : list T := concat m.

(** [(1 - A).sum(2)] *)
Definition gray (A : image) : list vec :=
  map (map (fun px => vsum (map (fun a => 1 - a) px))) A.

(** Line 56. *)
Definition grid_of (A : image) : list (nat * nat) :=
  let xy := meshgrid (arange (shape0 A)) (arange (shape1 A)) in
  combine (ravel (fst xy)) (ravel (snd xy)).

(** Line 57. *)
Definition dens_of (A : image) : vec :=
  map (fun a => a / vsum (ravel (gray A))) (ravel (gray A)).

(** [random.choices(population, weights, k=n)].  The random draws are given
    as the positions [draws] of the elements drawn, [n] of them.  Weights
    that are not one per element, or whose total is not positive (as checked
    since Python 3.9), are an error. *)
Definition choices {T} (population : list T) (weights : vec) (draws : list nat)
    : option (list T) :=
  if negb (length weights =? length population)%nat then None
  else if Rle_dec (vsum weights) 0 then None
  else sequence (map (nth_error population) draws).

(** [A[ys, xs]] for one pair: the pixel of row [y] and column [x]. *)
Definition pixel (A : image) (xy : nat * nat) : option vec :=
  row <- nth_error A (snd xy) ;; nth_error row (fst xy).

(** [labs.reshape((n,3))] of an array of [n] rows. *)
Definition reshape_n3 (labs : tensor) : option tensor :=
  if forallb (fun l => (length l =? 3)%nat) labs then Some labs else None.

(** Lines 50-68.  [draws] stands for the draws of [choices] and [noise s c]
    for entry (s, c) of [np.random.standard_normal(dots.shape)].  Without
    labels the result is the tensor of the points alone.  Drawing no sample
    leaves a 1-D empty array of dots, which the code cannot index or scale:
    an error. *)
Definition draw_samples (raw : raw_image) (draws : list nat)
    (noise : nat -> nat -> R) (labels : bool) : option (tensor * option tensor) :=
  let A := load_image raw in
  dots <- choices (grid_of A) (dens_of A) draws ;;
  match dots with
  | [] => None
  | _ =>
      labs <- (if labels
               then l <- sequence (map (pixel A) dots) ;;
                    r <- reshape_n3 l ;; Some (Some r)
               else Some None) ;;
      let dots1 :=
        map (fun d => [ (INR (fst d) + 5 / 10) / INR (shape0 A);
                        (INR (snd d) + 5 / 10) / INR (shape1 A) ]) dots in
      let dots2 :=
        map (fun sd => vadd (snd sd)
                         [ 5 / 10 / INR (shape0 A) * noise (fst sd) 0%nat;
                           5 / 10 / INR (shape0 A) * noise (fst sd) 1%nat ])
            (combine (seq 0 (length dots1)) dots1) in
      Some (dots2, labs)
  end.

(** An array of bytes. *)
Definition byte_image (raw : raw_image) : Prop :=
  Forall (Forall (Forall (fun b => (0 <= b <= 255)%Z))) raw.

(** An image whose values lie between 0 and 1. *)
Definition unit_image (A : image) : Prop :=
  Forall (Forall (Forall (fun a => 0 <= a <= 1))) A.

(** The point that [draw_samples] returns for the draw [k], the [s]-th one,
    on an image of [H] rows and [W] columns: the centre of the grid cell
    [(k mod H, k / H)] scaled to the unit square, plus the noise. *)
Definition sample_point (H W : nat) (noise : nat -> nat -> R) (s k : nat) : vec :=
  vadd [ (INR (k mod H) + 5 / 10) / INR H; (INR (k / H) + 5 / 10) / INR W ]
       [ 5 / 10 / INR H * noise s 0%nat; 5 / 10 / INR H * noise s 1%nat ].

(** ** Mass conservation with the solver of the specification *)


(** ** Vectors *)

Lemma zipWith_length op u v :
  length (zipWith op u v) = Nat.min (length u) (length v).
Proof.
  revert v; induction u as [|a u IH]; intros [|b v]; simpl; auto.
Qed.

Lemma vadd_comm u v : vadd u v = vadd v u.
Proof.
  unfold vadd; revert v; induction u as [|a u IH]; intros [|b v]; simpl; auto.
  rewrite IH, Rplus_comm; reflexivity.
Qed.

Lemma vadd_assoc u v w : vadd u (vadd v w) = vadd (vadd u v) w.
Proof.
  unfold vadd; revert v w; induction u as [|a u IH]; intros [|b v] [|c w]; simpl; auto.
  rewrite IH, Rplus_assoc; reflexivity.
Qed.

Lemma vadd_length u v : length (vadd u v) = Nat.min (length u) (length v).
Proof. apply zipWith_length. Qed.

Lemma zeros_length d : length (zeros d) = d.
Proof. apply repeat_length. Qed.

Lemma vadd_zeros_l v : vadd (zeros (length v)) v = v.
Proof.
  unfold vadd, zeros; induction v as [|a v IH]; simpl; auto.
  rewrite IH, Rplus_0_l; reflexivity.
Qed.

Lemma vscale_length c v : length (vscale c v) = length v.
Proof. apply length_map. Qed.

Lemma vscale_vadd c u v : vscale c (vadd u v) = vadd (vscale c u) (vscale c v).
Proof.
  unfold vadd, vscale; revert v; induction u as [|a u IH]; intros [|b v]; simpl; auto.
  rewrite IH, Rmult_plus_distr_l; reflexivity.
Qed.

Lemma vscale_zeros c d : vscale c (zeros d) = zeros d.
Proof.
  unfold vscale, zeros; induction d as [|d IH]; simpl; auto.
  rewrite IH, Rmult_0_r; reflexivity.
Qed.

Lemma vsum_list_length d l :
  Forall (fun v => length v = d) l -> length (vsum_list d l) = d.
Proof.
  induction 1 as [|v l Hv _ IH]; simpl.
  - apply zeros_length.
  - rewrite vadd_length, Hv, IH. apply Nat.min_id.
Qed.

Lemma fold_left_vadd d l :
  fold_left vadd l (zeros d) = vsum_list d l.
Proof.
  unfold vsum_list. apply fold_symmetric.
  - intros; apply vadd_assoc.
  - intros; apply vadd_comm.
Qed.

Lemma vsum_list_app d l1 l2 :
  Forall (fun v => length v = d) l2 ->
  vsum_list d (l1 ++ l2) = vadd (vsum_list d l1) (vsum_list d l2).
Proof.
  intros H2. unfold vsum_list. rewrite fold_right_app.
  induction l1 as [|v l1 IH]; simpl.
  - fold (vsum_list d l2).
    rewrite <- (vsum_list_length d l2 H2) at 2.
    symmetry; apply vadd_zeros_l.
  - rewrite IH, vadd_assoc; reflexivity.
Qed.

Lemma vsum_list_perm d l1 l2 :
  Permutation l1 l2 -> vsum_list d l1 = vsum_list d l2.
Proof.
  induction 1; simpl; try congruence.
  rewrite !vadd_assoc, (vadd_comm y x); reflexivity.
Qed.

Lemma vscale_vsum_list c d l :
  vscale c (vsum_list d l) = vsum_list d (map (vscale c) l).
Proof.
  induction l as [|v l IH]; simpl.
  - apply vscale_zeros.
  - rewrite vscale_vadd, IH; reflexivity.
Qed.

(** ** The kernel on well-shaped data *)

Lemma view_col_length F : length (view_col F) = length F.
Proof. apply length_map. Qed.

Lemma nth_error_view_col F i :
  (i < length F)%nat -> nth_error (view_col F) i = Some [nth i F 0].
Proof.
  intros Hi. unfold view_col.
  rewrite nth_error_map, (nth_error_nth' F 0 Hi). reflexivity.
Qed.

Lemma Forall_nth_length (t : tensor) d i :
  Forall (fun v => length v = d) t -> (i < length t)%nat -> length (nth i t []) = d.
Proof.
  intros H Hi. rewrite Forall_forall in H. apply H, nth_In, Hi.
Qed.

Section Kernel.
Variables (E : R) (X Y : tensor) (F G : vec) (L : tensor).
Hypothesis WS : well_shaped X Y F G L.

Lemma transfer_size_i : size_of Vi (transfer_env E X Y F G L) = Some (length X).
Proof.
  unfold size_of, transfer_env; simpl.
  rewrite view_col_length, (ws_F _ _ _ _ _ WS), Nat.eqb_refl. reflexivity.
Qed.

Lemma transfer_size_j : size_of Vj (transfer_env E X Y F G L) = Some (length Y).
Proof.
  unfold size_of, transfer_env; simpl.
  rewrite view_col_length, (ws_G _ _ _ _ _ WS), (ws_LY _ _ _ _ _ WS), Nat.eqb_refl.
  simpl. rewrite Nat.eqb_refl. reflexivity.
Qed.

Variables i j : nat.
Hypothesis Hi : (i < length X)%nat.
Hypothesis Hj : (j < length Y)%nat.

Lemma nth_error_X : nth_error X i = Some (nth i X []).
Proof. exact (nth_error_nth' X [] Hi). Qed.

Lemma nth_error_Y : nth_error Y j = Some (nth j Y []).
Proof. exact (nth_error_nth' Y [] Hj). Qed.

Lemma check_dim_X : check_dim 2 (nth i X []) = Some (nth i X []).
Proof.
  unfold check_dim.
  rewrite (Forall_nth_length X 2 i (ws_X _ _ _ _ _ WS) Hi). reflexivity.
Qed.

Lemma check_dim_Y : check_dim 2 (nth j Y []) = Some (nth j Y []).
Proof.
  unfold check_dim.
  rewrite (Forall_nth_length Y 2 j (ws_Y _ _ _ _ _ WS) Hj). reflexivity.
Qed.

Lemma col_in_L : (j < length L)%nat.
Proof. rewrite (ws_LY _ _ _ _ _ WS). exact Hj. Qed.

Lemma length_L_j : length (nth j L []) = 3%nat.
Proof. apply Forall_nth_length; [apply (ws_L _ _ _ _ _ WS) | apply col_in_L]. Qed.

Lemma eval_cost_term :
  eval (transfer_env E X Y F G L) i j cost_term = Some [/ 2 * sqdist (nth i X []) (nth j Y [])].
Proof.
  unfold cost_term, transfer_env. cbn.
  rewrite nth_error_X, nth_error_Y. cbn. rewrite check_dim_X, check_dim_Y. cbn.
  rewrite (Forall_nth_length X 2 i (ws_X _ _ _ _ _ WS) Hi).
  rewrite (Forall_nth_length Y 2 j (ws_Y _ _ _ _ _ WS) Hj).
  reflexivity.
Qed.

Lemma eval_exponent :
  eval (transfer_env E X Y F G L) i j ((Var "F_i" + Var "G_j" - cost_term) / Var "E")%keops
  = Some [exponent E X Y F G i j].
Proof.
  change (eval (transfer_env E X Y F G L) i j ((Var "F_i" + Var "G_j" - cost_term) / Var "E")%keops) with
    (u <- (u <- (u <- eval (transfer_env E X Y F G L) i j (Var "F_i") ;; v <- eval (transfer_env E X Y F G L) i j (Var "G_j") ;;
                 broadcast Rplus u v) ;;
           v <- eval (transfer_env E X Y F G L) i j cost_term ;; broadcast Rminus u v) ;;
     v <- eval (transfer_env E X Y F G L) i j (Var "E") ;; broadcast Rdiv u v).
  rewrite eval_cost_term.
  unfold transfer_env. cbn.
  rewrite nth_error_view_col by (rewrite (ws_F _ _ _ _ _ WS); exact Hi).
  rewrite nth_error_view_col by (rewrite (ws_G _ _ _ _ _ WS); exact Hj).
  reflexivity.
Qed.

Lemma eval_transfer_formula :
  eval (transfer_env E X Y F G L) i j transfer_formula = Some (vscale (exp (exponent E X Y F G i j)) (nth j L [])).
Proof.
  change (eval (transfer_env E X Y F G L) i j transfer_formula) with
    (u <- (v <- eval (transfer_env E X Y F G L) i j ((Var "F_i" + Var "G_j" - cost_term) / Var "E")%keops ;;
           Some (map exp v)) ;;
     v <- eval (transfer_env E X Y F G L) i j (Var "L_j") ;; broadcast Rmult u v).
  rewrite eval_exponent.
  unfold transfer_env. cbn.
  rewrite (nth_error_nth' L [] col_in_L). cbn.
  unfold check_dim. rewrite length_L_j. cbn.
  unfold broadcast. rewrite length_L_j. cbn.
  reflexivity.
Qed.
End Kernel.

(** ** The reduction *)

Lemma reduce_acc rho Fm d i js h acc :
  (forall j, In j js -> eval rho i j Fm = Some (h j) /\ length (h j) = d) ->
  fold_left
    (fun a j =>
       s <- a ;; v <- eval rho i j Fm ;; v' <- check_dim d v ;; Some (vadd s v'))
    js (Some acc)
  = Some (fold_left vadd (map h js) acc).
Proof.
  revert acc; induction js as [|j js IH]; intros acc H; simpl; auto.
  destruct (H j (or_introl eq_refl)) as [Hev Hlen].
  rewrite Hev. cbn. unfold check_dim. rewrite Hlen, Nat.eqb_refl. cbn.
  apply IH. intros k Hk. apply H. right; exact Hk.
Qed.

Lemma reduce_some rho Fm d i js h :
  (forall j, In j js -> eval rho i j Fm = Some (h j) /\ length (h j) = d) ->
  reduce rho Fm d false i js = Some (vsum_list d (map h js)).
Proof.
  intros H. unfold reduce. rewrite (reduce_acc rho Fm d i js h _ H).
  rewrite fold_left_vadd. reflexivity.
Qed.

Lemma sequence_map_some {A B} (f : A -> option B) (g : A -> B) l :
  (forall a, In a l -> f a = Some (g a)) -> sequence (map f l) = Some (map g l).
Proof.
  induction l as [|a l IH]; intros H; simpl; auto.
  rewrite (H a (or_introl eq_refl)). cbn.
  rewrite IH by (intros b Hb; apply H; right; exact Hb). reflexivity.
Qed.

(** The kernel returns, line by line, the sum over the columns of
    [exp(exponent) . L_j]. *)
Lemma transfer_rows E X Y F G L :
  well_shaped X Y F G L ->
  transfer [ [[E]]; X; Y; view_col F; view_col G; L ]
  = Some (map (fun i =>
                 vsum_list 3
                   (map (fun j => vscale (exp (exponent E X Y F G i j)) (nth j L []))
                        (seq 0 (length Y))))
              (seq 0 (length X))).
Proof.
  intros WS. unfold transfer, generic_sum.
  change (zip_env transfer_aliases [[[E]]; X; Y; view_col F; view_col G; L])
    with (Some (transfer_env E X Y F G L)).
  cbn [bind]. rewrite (transfer_size_i E X Y F G L WS). cbn [bind].
  rewrite (transfer_size_j E X Y F G L WS). cbn [bind a_cat a_dim].
  apply sequence_map_some. intros i Hi. apply in_seq in Hi.
  apply reduce_some. intros j Hj. apply in_seq in Hj. split.
  - apply eval_transfer_formula; [exact WS | lia | lia].
  - rewrite vscale_length. apply (length_L_j X Y F G L WS). lia.
Qed.

(** ** The ground cost *)

Lemma vsum_sq_nonneg v : 0 <= vsum (map (fun r => r * r) v).
Proof.
  induction v as [|a v IH]; simpl; [lra|]. pose proof (Rle_0_sqr a) as H.
  unfold Rsqr in H. lra.
Qed.

Lemma sqdist_vsub u v : vsum (map (fun r => r * r) (vsub u v)) = sqdist u v.
Proof.
  unfold vsub, sqdist; revert v; induction u as [|a u IH]; intros [|b v]; simpl; auto.
  rewrite IH; reflexivity.
Qed.

Lemma CostMetric_2 x y : CostMetric 2 x y = / 2 * sqdist x y.
Proof.
  unfold CostMetric, norm2. rewrite sqdist_vsub.
  change (INR 2) with (1 + 1). replace (1 + 1) with 2 by lra.
  simpl pow. rewrite Rmult_1_r, sqrt_sqrt; [reflexivity|].
  rewrite <- sqdist_vsub. apply vsum_sq_nonneg.
Qed.

Lemma gibbs_exponent eps X Y f g i j :
  gibbs 2 eps X Y f g i j = exp (exponent eps X Y f g i j).
Proof. unfold gibbs, exponent. rewrite CostMetric_2. reflexivity. Qed.

(** C1. For point clouds X (N points) and Y (M points), potentials F over X
    and G over Y, a temperature E and labels L over Y, the script's label
    transfer (the KeOps kernel applied to the data, over M) returns at every
    line i the vector [(1/M) . sum_j exp((F_i + G_j - C(x_i,y_j)) / E) . L_j]
    with C the ground cost [(1/2) |x - y|^2]. *)
Theorem apply_transfer_spec E X Y F G L :
  well_shaped X Y F G L ->
  apply_transfer E X Y F G L (length Y)
  = Some (map (transfer_spec E X Y F G L) (seq 0 (length X))).
Proof.
  intros WS. unfold apply_transfer. rewrite (transfer_rows E X Y F G L WS).
  cbn [option_map]. f_equal. unfold tdiv. rewrite map_map.
  apply map_ext. intros i. unfold transfer_spec, vscale at 1.
  erewrite (map_ext (fun j => vscale (gibbs 2 E X Y F G i j) (nth j L []))).
  2:{ intros j. rewrite gibbs_exponent. reflexivity. }
  apply map_ext. intros a. unfold Rdiv. apply Rmult_comm.
Qed.

(** ** The runs of the script *)

Section Runs.
Import Script.
Variable SamplesLoss : SamplesLoss_args -> tensor -> tensor -> vec * vec.
Variable use_cuda : bool.
Variables X_i Y_j l_j : tensor.

Lemma balanced_run_labels w :
  option_map fst (balanced_run SamplesLoss use_cuda X_i Y_j l_j w)
  = apply_transfer (blur ^ 2) X_i Y_j
      (fst (SamplesLoss balanced_args X_i Y_j))
      (snd (SamplesLoss balanced_args X_i Y_j)) l_j (M use_cuda).
Proof.
  unfold balanced_run, apply_transfer, seq_io, call_transfer.
  destruct (SamplesLoss balanced_args X_i Y_j) as [F G]; cbn [fst snd].
  destruct (transfer _); reflexivity.
Qed.

Lemma unbalanced_run_labels w :
  option_map fst (unbalanced_run SamplesLoss use_cuda X_i Y_j l_j w)
  = apply_transfer (blur ^ 2) X_i Y_j
      (fst (SamplesLoss unbalanced_args X_i Y_j))
      (snd (SamplesLoss unbalanced_args X_i Y_j)) l_j (M use_cuda).
Proof.
  unfold unbalanced_run, apply_transfer, seq_io, call_transfer.
  destruct (SamplesLoss unbalanced_args X_i Y_j) as [F G]; cbn [fst snd].
  destruct (transfer _); reflexivity.
Qed.

Lemma balanced_run_calls w :
  well_shaped X_i Y_j (fst (SamplesLoss balanced_args X_i Y_j))
              (snd (SamplesLoss balanced_args X_i Y_j)) l_j ->
  exists labels out,
    balanced_run SamplesLoss use_cuda X_i Y_j l_j w
    = Some (labels, World (kernel_calls w ++ [[[blur ^ 2]] :: out]) (stdout w ++ [mean (abs_dev (sum1 labels))])).
Proof.
  intros WS. unfold balanced_run.
  destruct (SamplesLoss balanced_args X_i Y_j) as [F G]; cbn [fst snd] in WS.
  unfold seq_io, call_transfer. rewrite (transfer_rows _ _ _ _ _ _ WS).
  cbn. eexists; eexists; reflexivity.
Qed.

Lemma unbalanced_run_calls w :
  well_shaped X_i Y_j (fst (SamplesLoss unbalanced_args X_i Y_j))
              (snd (SamplesLoss unbalanced_args X_i Y_j)) l_j ->
  exists labels out,
    unbalanced_run SamplesLoss use_cuda X_i Y_j l_j w
    = Some (labels, World (kernel_calls w ++ [[[blur ^ 2]] :: out]) (stdout w ++ [mean (abs_dev (sum1 labels))])).
Proof.
  intros WS. unfold unbalanced_run.
  destruct (SamplesLoss unbalanced_args X_i Y_j) as [F G]; cbn [fst snd] in WS.
  unfold seq_io, call_transfer. rewrite (transfer_rows _ _ _ _ _ _ WS).
  cbn. eexists; eexists; reflexivity.
Qed.
End Runs.

Lemma blur_squared : Script.blur ^ 2 = 25 / 10000.
Proof. unfold Script.blur. simpl. lra. Qed.

(** C4. The temperature handed to the label-transfer kernel is [blur^p] for
    the [blur] and [p] given to the solver: on well-shaped data the script
    calls the kernel exactly twice, once per run, and the first argument of
    both calls is the one-entry tensor [blur^2], with p = 2 and blur = 0.05,
    that is 0.0025. *)
Theorem temperature_is_blur_pow_p
    (SamplesLoss : Script.SamplesLoss_args -> tensor -> tensor -> vec * vec)
    (use_cuda : bool) (X_i Y_j l_j : tensor) :
  well_shaped X_i Y_j (fst (SamplesLoss Script.balanced_args X_i Y_j))
              (snd (SamplesLoss Script.balanced_args X_i Y_j)) l_j ->
  well_shaped X_i Y_j (fst (SamplesLoss Script.unbalanced_args X_i Y_j))
              (snd (SamplesLoss Script.unbalanced_args X_i Y_j)) l_j ->
  exists out w,
    Script.main SamplesLoss use_cuda X_i Y_j l_j Script.start = Some (out, w)
    /\ map Script.temperature_of (Script.kernel_calls w)
       = [ Some [[Script.blur_arg Script.balanced_args ^ Script.p Script.balanced_args]];
           Some [[Script.blur_arg Script.unbalanced_args ^ Script.p Script.unbalanced_args]] ]
    /\ Script.blur_arg Script.balanced_args = 5 / 100
    /\ Script.blur_arg Script.unbalanced_args = 5 / 100
    /\ Script.p Script.balanced_args = 2%nat
    /\ Script.p Script.unbalanced_args = 2%nat
    /\ Script.blur ^ 2 = 25 / 10000.
Proof.
  intros WS1 WS2. unfold Script.main, Script.seq_io.
  destruct (balanced_run_calls SamplesLoss use_cuda X_i Y_j l_j Script.start WS1)
    as (lab1 & out1 & H1).
  rewrite H1.
  destruct (unbalanced_run_calls SamplesLoss use_cuda X_i Y_j l_j
              (Script.World (Script.kernel_calls Script.start ++ [[[Script.blur ^ 2]] :: out1])
                 (Script.stdout Script.start ++ [mean (abs_dev (sum1 lab1))])) WS2)
    as (lab2 & out2 & H2).
  rewrite H2. unfold Script.ret.
  eexists; eexists; split; [reflexivity|].
  repeat split. apply blur_squared.
Qed.

(** C10. The label transfer is a pure function of (E, X, Y, F, G, L): what the
    kernel returns for given arguments does not depend on the world it is
    called in; and the [reach] given to the solver reaches the labels only
    through the potentials: each run returns the same kernel, at the same
    temperature [blur^2], applied to the potentials of its solver, so that a
    solver returning the same potentials with and without [reach] gives the
    same labels. *)
Theorem reach_only_through_potentials
    (SamplesLoss : Script.SamplesLoss_args -> tensor -> tensor -> vec * vec)
    (use_cuda : bool) (X_i Y_j l_j : tensor) (w w' : Script.world) :
  (forall args, option_map fst (Script.call_transfer args w)
                = option_map fst (Script.call_transfer args w'))
  /\ option_map fst (Script.balanced_run SamplesLoss use_cuda X_i Y_j l_j w)
     = apply_transfer (Script.blur ^ 2) X_i Y_j
         (fst (SamplesLoss Script.balanced_args X_i Y_j))
         (snd (SamplesLoss Script.balanced_args X_i Y_j)) l_j (Script.M use_cuda)
  /\ option_map fst (Script.unbalanced_run SamplesLoss use_cuda X_i Y_j l_j w')
     = apply_transfer (Script.blur ^ 2) X_i Y_j
         (fst (SamplesLoss Script.unbalanced_args X_i Y_j))
         (snd (SamplesLoss Script.unbalanced_args X_i Y_j)) l_j (Script.M use_cuda)
  /\ (SamplesLoss Script.unbalanced_args X_i Y_j = SamplesLoss Script.balanced_args X_i Y_j ->
      option_map fst (Script.unbalanced_run SamplesLoss use_cuda X_i Y_j l_j w')
      = option_map fst (Script.balanced_run SamplesLoss use_cuda X_i Y_j l_j w)).
Proof.
  split; [|split; [|split]].
  - intros args. unfold Script.call_transfer. destruct (transfer args); reflexivity.
  - apply balanced_run_labels.
  - apply unbalanced_run_labels.
  - intros Heq. rewrite balanced_run_labels, unbalanced_run_labels, Heq. reflexivity.
Qed.

(** ** The cost inside the kernel *)

(** C3. With the exponent p = 2 of the script, the cost evaluated by the
    kernel at every pair of points is [(1/p) |x - y|^p], exactly half the
    squared Euclidean distance, and the kernel obtains it through [SqDist]:
    neither the cost term nor the whole formula goes through a generic power,
    a square root or a norm. *)
Theorem cost_is_half_squared_distance E X Y F G L i j :
  well_shaped X Y F G L -> (i < length X)%nat -> (j < length Y)%nat ->
  eval (transfer_env E X Y F G L) i j cost_term
    = Some [CostMetric 2 (nth i X []) (nth j Y [])]
  /\ CostMetric 2 (nth i X []) (nth j Y []) = / 2 * sqdist (nth i X []) (nth j Y [])
  /\ sqdist (nth i X []) (nth j Y []) = norm2 (vsub (nth i X []) (nth j Y [])) ^ 2
  /\ cost_term = (IntInv 2 * SqDist (Var "X_i") (Var "Y_j"))%keops
  /\ uses_generic_power cost_term = false
  /\ uses_generic_power transfer_formula = false.
Proof.
  intros WS Hi Hj. rewrite CostMetric_2. repeat split.
  - apply eval_cost_term; assumption.
  - unfold norm2. rewrite sqdist_vsub. simpl pow. rewrite Rmult_1_r, sqrt_sqrt; [reflexivity|].
    rewrite <- sqdist_vsub. apply vsum_sq_nonneg.
Qed.

(** ** The exponential of the kernel *)

Lemma exp_args_transfer E X Y F G L i j :
  well_shaped X Y F G L -> (i < length X)%nat -> (j < length Y)%nat ->
  exp_args (transfer_env E X Y F G L) i j transfer_formula = [exponent E X Y F G i j].
Proof.
  intros WS Hi Hj.
  change (exp_args (transfer_env E X Y F G L) i j transfer_formula) with
    ((([] ++ []) ++ [] ++ [] ++ []) ++ [] ++
     match eval (transfer_env E X Y F G L) i j
             ((Var "F_i" + Var "G_j" - cost_term) / Var "E")%keops with
     | Some v => v | None => [] end ++ []).
  rewrite (eval_exponent E X Y F G L WS i j Hi Hj). reflexivity.
Qed.

Lemma pow2_le_exp n : 2 ^ n <= exp (INR n).
Proof.
  induction n as [|n IH].
  - simpl. rewrite exp_0. lra.
  - rewrite S_INR, exp_plus. simpl pow.
    pose proof (exp_ineq1_le 1) as H1. pose proof (exp_pos (INR n)) as Hp.
    assert (0 < 2 ^ n) by (apply pow_lt; lra). nra.
Qed.

Lemma FLT_MAX_lt_exp_128 : FLT_MAX < exp 128.
Proof.
  apply Rlt_le_trans with (2 ^ 128).
  - unfold FLT_MAX. change (2 ^ 128) with (2 * 2 ^ 127).
    assert (0 < 2 ^ 127) by (apply pow_lt; lra).
    assert (0 < / 2 ^ 23) by (apply Rinv_0_lt_compat, pow_lt; lra). nra.
  - replace 128 with (INR 128); [apply pow2_le_exp|].
    rewrite INR_IZR_INZ. reflexivity.
Qed.

Lemma one_le_FLT_MAX : 1 <= FLT_MAX.
Proof.
  unfold FLT_MAX.
  assert (1 <= 2 ^ 127) by (apply pow_R1_Rle; lra).
  assert (1 <= 2 ^ 23) by (apply pow_R1_Rle; lra).
  assert (/ 2 ^ 23 <= 1).
  { rewrite <- Rinv_1. apply Rinv_le_contravar; lra. }
  nra.
Qed.

Lemma well_shaped_one_point f g :
  well_shaped [[0; 0]] [[0; 0]] [f] [g] [[1; 0; 0]].
Proof. constructor; repeat constructor. Qed.

(** C5, as stated, fails: at the temperature of the script, on one point per
    cloud at the same place with potentials 1 and 0, the kernel evaluates the
    exponential at 400, beyond the range of the tensors' numbers. *)
Lemma transfer_exp_not_in_range :
  ~ exp_in_range (25 / 10000) [[0; 0]] [[0; 0]] [1] [0] [[1; 0; 0]].
Proof.
  intros H. specialize (H 0%nat 0%nat (Nat.lt_0_1) (Nat.lt_0_1)).
  rewrite (exp_args_transfer _ _ _ _ _ _ 0 0 (well_shaped_one_point 1 0)) in H
    by (simpl; lia).
  inversion H as [|a l Ha _]; subst.
  assert (Hex : exponent (25 / 10000) [[0; 0]] [[0; 0]] [1] [0] 0 0 = 400).
  { unfold exponent, sqdist; simpl. field. }
  rewrite Hex in Ha.
  pose proof FLT_MAX_lt_exp_128 as H128.
  assert (exp 128 < exp 400) by (apply exp_increasing; lra).
  lra.
Qed.

(** C5, amended.  The kernel evaluates the exponential once per pair, on the
    unshifted argument [(F_i + G_j - C(x_i,y_j)) / E]: no maximum over the
    line is subtracted and nothing is rescaled.  The exponential is in range
    when the caller's data keep that argument small, for instance when E > 0
    and [F_i + G_j <= C(x_i,y_j)]. *)
Theorem exp_argument_unshifted E X Y F G L i j :
  well_shaped X Y F G L -> (i < length X)%nat -> (j < length Y)%nat ->
  exp_args (transfer_env E X Y F G L) i j transfer_formula
    = [(nth i F 0 + nth j G 0 - CostMetric 2 (nth i X []) (nth j Y [])) / E]
  /\ (0 < E -> nth i F 0 + nth j G 0 <= CostMetric 2 (nth i X []) (nth j Y []) ->
      Forall (fun a => exp a <= FLT_MAX)
             (exp_args (transfer_env E X Y F G L) i j transfer_formula)).
Proof.
  intros WS Hi Hj. rewrite (exp_args_transfer E X Y F G L i j WS Hi Hj).
  unfold exponent. rewrite <- CostMetric_2. split; [reflexivity|].
  intros HE Hle. constructor; [|constructor].
  apply Rle_trans with 1; [|apply one_le_FLT_MAX].
  rewrite <- exp_0.
  set (d := nth i F 0 + nth j G 0 - CostMetric 2 (nth i X []) (nth j Y [])).
  assert (Hd : d <= 0) by (unfold d; lra).
  assert (Hq : d / E <= 0).
  { unfold Rdiv. assert (0 < / E) by (apply Rinv_0_lt_compat; exact HE). nra. }
  destruct Hq as [Hq | Hq]; [left; apply exp_increasing; exact Hq | rewrite Hq; right; reflexivity].
Qed.

(** ** Columns *)

Lemma map_seq_nth {A B} (k : A -> B) (l : list A) d :
  map (fun j => k (nth j l d)) (seq 0 (length l)) = map k l.
Proof.
  induction l as [|a l IH]; simpl; auto.
  rewrite <- seq_shift, map_map. simpl. rewrite IH. reflexivity.
Qed.

Lemma nth_Ys cols j : nth j (Ys cols) [] = c_y (nth j cols column0).
Proof. exact (map_nth c_y cols column0 j). Qed.

Lemma nth_Gs cols j : nth j (Gs cols) 0 = c_g (nth j cols column0).
Proof. exact (map_nth c_g cols column0 j). Qed.

Lemma nth_Ls cols j : nth j (Ls cols) [] = c_l (nth j cols column0).
Proof. exact (map_nth c_l cols column0 j). Qed.

Lemma well_shaped_cols X F cols :
  well_shaped X (Ys cols) F (Gs cols) (Ls cols)
  <-> Forall (fun x => length x = 2%nat) X /\ length F = length X /\ cols_ok cols.
Proof.
  unfold cols_ok, Ys, Gs, Ls. split.
  - intros [HX HY HF HG HL HLY]. repeat split; auto.
    rewrite Forall_map in HY, HL. rewrite Forall_forall in *.
    intros c Hc. split; auto.
  - intros (HX & HF & Hc). constructor; auto.
    + rewrite Forall_map. eapply Forall_impl; [|exact Hc]. intros c [H _]; exact H.
    + rewrite !length_map. reflexivity.
    + rewrite Forall_map. eapply Forall_impl; [|exact Hc]. intros c [_ H]; exact H.
    + rewrite !length_map. reflexivity.
Qed.

Lemma transfer_cols_rows E X F cols :
  well_shaped X (Ys cols) F (Gs cols) (Ls cols) ->
  transfer_cols E X F cols
  = Some (map (fun i => row_sum E X F i cols) (seq 0 (length X))).
Proof.
  intros WS. unfold transfer_cols. rewrite (transfer_rows _ _ _ _ _ _ WS).
  f_equal. apply map_ext. intros i. unfold row_sum. f_equal.
  replace (length (Ys cols)) with (length cols) by (unfold Ys; now rewrite length_map).
  rewrite <- (map_seq_nth
    (fun c => vscale (exp ((nth i F 0 + c_g c - / 2 * sqdist (nth i X []) (c_y c)) / E))
                     (c_l c)) cols column0).
  apply map_ext. intros j. unfold exponent.
  rewrite nth_Ys, nth_Gs, nth_Ls. reflexivity.
Qed.

(** ** Order of the columns *)

Lemma cols_ok_perm cols cols' : Permutation cols cols' -> cols_ok cols -> cols_ok cols'.
Proof. intros HP H. unfold cols_ok. eapply Permutation_Forall; eauto. Qed.

Lemma row_sum_perm E X F i cols cols' :
  Permutation cols cols' -> row_sum E X F i cols' = row_sum E X F i cols.
Proof.
  intros HP. unfold row_sum. apply vsum_list_perm, Permutation_map, Permutation_sym, HP.
Qed.

Lemma transfer_cols_perm E X F cols cols' :
  well_shaped X (Ys cols) F (Gs cols) (Ls cols) ->
  Permutation cols cols' ->
  transfer_cols E X F cols' = transfer_cols E X F cols.
Proof.
  intros WS HP.
  assert (WS' : well_shaped X (Ys cols') F (Gs cols') (Ls cols')).
  { apply well_shaped_cols. apply well_shaped_cols in WS.
    destruct WS as (HX & HF & Hc). repeat split; auto.
    eapply cols_ok_perm; eauto. }
  rewrite !transfer_cols_rows by assumption.
  f_equal. apply map_ext. intros i. apply row_sum_perm, HP.
Qed.

(** ** Tiles *)

Lemma row_sum_nil E X F i : row_sum E X F i [] = zeros 3.
Proof. reflexivity. Qed.

Lemma row_sum_app E X F i cols1 cols2 :
  cols_ok cols2 ->
  row_sum E X F i (cols1 ++ cols2) = vadd (row_sum E X F i cols1) (row_sum E X F i cols2).
Proof.
  intros H2. unfold row_sum. rewrite map_app. apply vsum_list_app.
  rewrite Forall_map. eapply Forall_impl; [|exact H2].
  intros c [_ Hl]. rewrite vscale_length. exact Hl.
Qed.

Lemma repeat_map_seq {A} (a : A) n s : repeat a n = map (fun _ => a) (seq s n).
Proof.
  revert s; induction n as [|n IH]; intros s; simpl; auto. rewrite <- IH; reflexivity.
Qed.

Lemma tadd_map {A} (f g : A -> vec) l :
  tadd (map f l) (map g l) = map (fun a => vadd (f a) (g a)) l.
Proof. induction l as [|a l IH]; simpl; auto. rewrite IH; reflexivity. Qed.

Lemma cols_ok_app cols1 cols2 : cols_ok (cols1 ++ cols2) <-> cols_ok cols1 /\ cols_ok cols2.
Proof. apply Forall_app. Qed.

Lemma transfer_tiled_acc E X F tiles done :
  Forall (fun x => length x = 2%nat) X -> length F = length X ->
  cols_ok (concat tiles) ->
  fold_left
    (fun acc tile => s <- acc ;; t <- transfer_cols E X F tile ;; Some (tadd s t))
    tiles (Some (map (fun i => row_sum E X F i done) (seq 0 (length X))))
  = Some (map (fun i => row_sum E X F i (done ++ concat tiles)) (seq 0 (length X))).
Proof.
  intros HX HF. revert done; induction tiles as [|tile tiles IH]; intros done Hok.
  - simpl. rewrite app_nil_r. reflexivity.
  - simpl in Hok. apply cols_ok_app in Hok. destruct Hok as [Hok1 Hok2].
    simpl fold_left. cbn [bind].
    rewrite transfer_cols_rows by (apply well_shaped_cols; auto).
    cbn [bind]. rewrite tadd_map.
    rewrite (map_ext _ (fun i => row_sum E X F i (done ++ tile))).
    2:{ intros i. symmetry. apply row_sum_app, Hok1. }
    rewrite IH by exact Hok2. simpl concat. rewrite app_assoc. reflexivity.
Qed.

Lemma transfer_tiled_concat E X F tiles :
  well_shaped X (Ys (concat tiles)) F (Gs (concat tiles)) (Ls (concat tiles)) ->
  transfer_tiled E X F tiles = transfer_cols E X F (concat tiles).
Proof.
  intros WS. rewrite (transfer_cols_rows _ _ _ _ WS).
  apply well_shaped_cols in WS. destruct WS as (HX & HF & Hok).
  unfold transfer_tiled. rewrite (repeat_map_seq (zeros 3) (length X) 0).
  apply (transfer_tiled_acc E X F tiles [] HX HF Hok).
Qed.

(** ** The softmin reduction *)

Lemma vsum_app u v : vsum (u ++ v) = vsum u + vsum v.
Proof. unfold vsum. induction u as [|a u IH]; simpl; [lra | rewrite IH; lra]. Qed.

Lemma vsum_perm u v : Permutation u v -> vsum u = vsum v.
Proof. unfold vsum. induction 1; simpl; lra. Qed.

Lemma softmin_mass_app p eps x cols1 cols2 :
  softmin_mass p eps x (cols1 ++ cols2)
  = softmin_mass p eps x cols1 + softmin_mass p eps x cols2.
Proof. unfold softmin_mass. rewrite map_app. apply vsum_app. Qed.

Lemma softmin_mass_perm p eps x cols cols' :
  Permutation cols cols' -> softmin_mass p eps x cols' = softmin_mass p eps x cols.
Proof.
  intros HP. unfold softmin_mass. apply vsum_perm, Permutation_map, Permutation_sym, HP.
Qed.

Lemma softmin_mass_nonneg p eps x cols :
  Forall (fun c => 0 < c_b c) cols -> 0 <= softmin_mass p eps x cols.
Proof.
  unfold softmin_mass. induction 1 as [|c cols Hc _ IH]; simpl; [lra|].
  pose proof (exp_pos ((c_g c - CostMetric p x (c_y c)) / eps)). nra.
Qed.

Lemma softmin_mass_pos p eps x cols :
  cols <> [] -> Forall (fun c => 0 < c_b c) cols -> 0 < softmin_mass p eps x cols.
Proof.
  intros Hne H. destruct H as [|c cols Hc Hcols]; [congruence|].
  pose proof (softmin_mass_nonneg p eps x cols Hcols) as Hn.
  unfold softmin_mass in *. simpl.
  pose proof (exp_pos ((c_g c - CostMetric p x (c_y c)) / eps)). nra.
Qed.

(** The Gibbs factor of a softmin is the mass it was taken from. *)
Lemma exp_softmin p eps x cols :
  eps <> 0 -> 0 < softmin_mass p eps x cols ->
  exp (- softmin p eps x cols / eps) = softmin_mass p eps x cols.
Proof.
  intros He Hpos. unfold softmin.
  replace (- (- eps * ln (softmin_mass p eps x cols)) / eps)
    with (ln (softmin_mass p eps x cols)) by (field; exact He).
  apply exp_ln, Hpos.
Qed.

Lemma softmin_combine_app p eps x cols1 cols2 :
  eps <> 0 -> 0 < softmin_mass p eps x cols1 -> 0 < softmin_mass p eps x cols2 ->
  softmin_combine eps (softmin p eps x cols1) (softmin p eps x cols2)
  = softmin p eps x (cols1 ++ cols2).
Proof.
  intros He H1 H2. unfold softmin_combine.
  rewrite !exp_softmin by assumption.
  unfold softmin at 1. rewrite softmin_mass_app. reflexivity.
Qed.

Lemma softmin_tiled_acc p eps x done tiles :
  eps <> 0 -> done <> [] -> Forall (fun c => 0 < c_b c) done ->
  Forall (fun t => t <> []) tiles -> Forall (fun c => 0 < c_b c) (concat tiles) ->
  fold_left (fun acc t => softmin_combine eps acc (softmin p eps x t))
            tiles (softmin p eps x done)
  = softmin p eps x (done ++ concat tiles).
Proof.
  intros He. revert done; induction tiles as [|t tiles IH]; intros done Hne Hb Hts Hbs.
  - simpl. rewrite app_nil_r. reflexivity.
  - simpl in Hbs. apply Forall_app in Hbs. destruct Hbs as [Hbt Hbs].
    inversion Hts as [|? ? Ht Hts']; subst.
    simpl fold_left. rewrite softmin_combine_app; auto using softmin_mass_pos.
    rewrite IH; auto.
    + simpl concat. rewrite app_assoc. reflexivity.
    + destruct done; [congruence | discriminate].
    + apply Forall_app; split; assumption.
Qed.

Lemma softmin_tiled_concat p eps x tile tiles :
  eps <> 0 -> Forall (fun t => t <> []) (tile :: tiles) ->
  Forall (fun c => 0 < c_b c) (concat (tile :: tiles)) ->
  softmin_tiled p eps x tile tiles = softmin p eps x (concat (tile :: tiles)).
Proof.
  intros He Hts Hbs. inversion Hts as [|? ? Ht Hts']; subst.
  simpl in Hbs. apply Forall_app in Hbs. destruct Hbs as [Hbt Hbs].
  apply softmin_tiled_acc; assumption.
Qed.

(** C6. Permuting the columns, with their fields g, b and L, or splitting
    them into tiles and accumulating the partial reductions, leaves every
    line of a reduction unchanged, for the weighted sum of the kernel and for
    the softmin (tiles of the softmin are not empty and carry positive
    weights).  In exact arithmetic the results are equal, hence within every
    tolerance. *)
Theorem reduction_order_and_tiling (p : nat) (E : R) (X : tensor) (F : vec)
    (x : vec) (cols cols' : list column) (wtiles : list (list column))
    (tile : list column) (tiles : list (list column)) :
  well_shaped X (Ys cols) F (Gs cols) (Ls cols) ->
  Permutation cols cols' ->
  concat wtiles = cols ->
  concat (tile :: tiles) = cols ->
  Forall (fun t => t <> []) (tile :: tiles) ->
  Forall (fun c => 0 < c_b c) cols ->
  E <> 0 ->
  transfer_cols E X F cols' = transfer_cols E X F cols
  /\ transfer_tiled E X F wtiles = transfer_cols E X F cols
  /\ softmin p E x cols' = softmin p E x cols
  /\ softmin_tiled p E x tile tiles = softmin p E x cols.
Proof.
  intros WS HP Hw Ht Hne Hb HE. repeat split.
  - apply transfer_cols_perm; assumption.
  - rewrite <- Hw in WS |- *. apply transfer_tiled_concat, WS.
  - unfold softmin. rewrite (softmin_mass_perm p E x cols cols' HP). reflexivity.
  - rewrite <- Ht in Hb |- *. apply softmin_tiled_concat; assumption.
Qed.

(** ** Sums of the lines of the transferred labels *)

Lemma vsum_vadd u v : length u = length v -> vsum (vadd u v) = vsum u + vsum v.
Proof.
  unfold vadd, vsum. revert v; induction u as [|a u IH]; intros [|b v] H; simpl in *;
    try discriminate; [lra|].
  rewrite IH by congruence. lra.
Qed.

Lemma vsum_zeros d : vsum (zeros d) = 0.
Proof. unfold vsum, zeros. induction d as [|d IH]; simpl; [|rewrite IH]; lra. Qed.

Lemma vsum_vscale c v : vsum (vscale c v) = c * vsum v.
Proof. unfold vsum, vscale. induction v as [|a v IH]; simpl; [|rewrite IH]; lra. Qed.

Lemma vsum_div v (M : nat) : vsum (map (fun a => a / INR M) v) = vsum v / INR M.
Proof.
  unfold vsum, Rdiv. induction v as [|a v IH]; simpl; [|rewrite IH]; lra.
Qed.

Lemma vsum_vsum_list d l :
  Forall (fun v => length v = d) l ->
  vsum (vsum_list d l) = vsum (map vsum l).
Proof.
  induction 1 as [|v l Hv Hl IH]; simpl.
  - apply vsum_zeros.
  - rewrite vsum_vadd by (rewrite vsum_list_length by exact Hl; exact Hv).
    rewrite IH. reflexivity.
Qed.



Lemma vsum_map_scale_r {A} (k : A -> R) c (l : list A) :
  vsum (map (fun a => k a * c) l) = vsum (map k l) * c.
Proof. unfold vsum. induction l as [|a l IH]; simpl; [|rewrite IH]; lra. Qed.









(** ** The solver of the specification *)

(** C9. A call of [solve] in which a cloud has no point fails with
    [EmptyInput]: no sweep of the loop is run and no potential is returned. *)
Theorem empty_input_rejected (s : Sinkhorn.settings) (a b : Sinkhorn.PointCloud) :
  length (Sinkhorn.points a) = 0%nat \/ length (Sinkhorn.points b) = 0%nat ->
  Sinkhorn.solve s a b = (inl Sinkhorn.EmptyInput, 0%nat).
Proof.
  intros [H | H]; unfold Sinkhorn.solve; rewrite H; simpl.
  - reflexivity.
  - rewrite Bool.orb_true_r. reflexivity.
Qed.

(** ** The theorems at concrete inputs *)

Lemma apply_transfer_spec_witness :
  well_shaped [[0; 0]] [[0; 0]] [0] [0] [[1; 0; 0]]
  /\ apply_transfer 1 [[0; 0]] [[0; 0]] [0] [0] [[1; 0; 0]] 1
     = Some (map (transfer_spec 1 [[0; 0]] [[0; 0]] [0] [0] [[1; 0; 0]]) (seq 0 1)).
Proof.
  split.
  - constructor; repeat constructor.
  - apply (apply_transfer_spec 1 [[0; 0]] [[0; 0]] [0] [0] [[1; 0; 0]]).
    constructor; repeat constructor.
Defined.

Lemma cost_is_half_squared_distance_witness :
  well_shaped [[3; 0]] [[0; 4]] [0] [0] [[1; 0; 0]]
  /\ (0 < 1)%nat
  /\ eval (transfer_env 1 [[3; 0]] [[0; 4]] [0] [0] [[1; 0; 0]]) 0 0 cost_term
     = Some [CostMetric 2 [3; 0] [0; 4]]
  /\ CostMetric 2 [3; 0] [0; 4] = / 2 * sqdist [3; 0] [0; 4].
Proof.
  assert (WS : well_shaped [[3; 0]] [[0; 4]] [0] [0] [[1; 0; 0]])
    by (constructor; repeat constructor).
  pose proof (cost_is_half_squared_distance 1 [[3; 0]] [[0; 4]] [0] [0] [[1; 0; 0]]
                0 0 WS Nat.lt_0_1 Nat.lt_0_1) as H.
  split; [exact WS|]. split; [exact Nat.lt_0_1|].
  split; [exact (proj1 H) | exact (proj1 (proj2 H))].
Defined.

Lemma temperature_is_blur_pow_p_witness :
  well_shaped [[0; 0]] [[0; 0]] [0] [0] [[1; 0; 0]]
  /\ exists out w,
       Script.main (fun _ _ _ => ([0], [0])) false [[0; 0]] [[0; 0]] [[1; 0; 0]]
                   Script.start = Some (out, w)
       /\ map Script.temperature_of (Script.kernel_calls w)
          = [ Some [[Script.blur ^ 2]]; Some [[Script.blur ^ 2]] ].
Proof.
  assert (WS : well_shaped [[0; 0]] [[0; 0]] [0] [0] [[1; 0; 0]])
    by (constructor; repeat constructor).
  split; [exact WS|].
  destruct (temperature_is_blur_pow_p (fun _ _ _ => ([0], [0])) false
              [[0; 0]] [[0; 0]] [[1; 0; 0]] WS WS) as (out & w & Hrun & Hcalls & _).
  exists out, w. split; [exact Hrun | exact Hcalls].
Defined.

Lemma exp_argument_unshifted_witness :
  well_shaped [[0; 0]] [[0; 0]] [0] [0] [[1; 0; 0]]
  /\ 0 < 1
  /\ Forall (fun a => exp a <= FLT_MAX)
       (exp_args (transfer_env 1 [[0; 0]] [[0; 0]] [0] [0] [[1; 0; 0]]) 0 0
                 transfer_formula).
Proof.
  assert (WS : well_shaped [[0; 0]] [[0; 0]] [0] [0] [[1; 0; 0]])
    by (constructor; repeat constructor).
  split; [exact WS|]. split; [exact Rlt_0_1|].
  apply (proj2 (exp_argument_unshifted 1 [[0; 0]] [[0; 0]] [0] [0] [[1; 0; 0]] 0 0
                  WS Nat.lt_0_1 Nat.lt_0_1)).
  - exact Rlt_0_1.
  - rewrite CostMetric_2. unfold sqdist. simpl. lra.
Defined.

Lemma reduction_order_and_tiling_witness :
  Permutation [Column [0; 0] 0 (/ 2) [1; 0; 0]; Column [1; 0] 0 (/ 2) [0; 1; 0]]
              [Column [1; 0] 0 (/ 2) [0; 1; 0]; Column [0; 0] 0 (/ 2) [1; 0; 0]]
  /\ transfer_cols 1 [[0; 0]] [0]
       [Column [1; 0] 0 (/ 2) [0; 1; 0]; Column [0; 0] 0 (/ 2) [1; 0; 0]]
     = transfer_cols 1 [[0; 0]] [0]
         [Column [0; 0] 0 (/ 2) [1; 0; 0]; Column [1; 0] 0 (/ 2) [0; 1; 0]]
  /\ transfer_tiled 1 [[0; 0]] [0]
       [[Column [0; 0] 0 (/ 2) [1; 0; 0]]; []; [Column [1; 0] 0 (/ 2) [0; 1; 0]]]
     = transfer_cols 1 [[0; 0]] [0]
         [Column [0; 0] 0 (/ 2) [1; 0; 0]; Column [1; 0] 0 (/ 2) [0; 1; 0]]
  /\ softmin 2 1 [0; 0]
       [Column [1; 0] 0 (/ 2) [0; 1; 0]; Column [0; 0] 0 (/ 2) [1; 0; 0]]
     = softmin 2 1 [0; 0]
         [Column [0; 0] 0 (/ 2) [1; 0; 0]; Column [1; 0] 0 (/ 2) [0; 1; 0]]
  /\ softmin_tiled 2 1 [0; 0]
       [Column [0; 0] 0 (/ 2) [1; 0; 0]] [[Column [1; 0] 0 (/ 2) [0; 1; 0]]]
     = softmin 2 1 [0; 0]
         [Column [0; 0] 0 (/ 2) [1; 0; 0]; Column [1; 0] 0 (/ 2) [0; 1; 0]].
Proof.
  split; [apply perm_swap|].
  apply (reduction_order_and_tiling 2 1 [[0; 0]] [0] [0; 0]
           [Column [0; 0] 0 (/ 2) [1; 0; 0]; Column [1; 0] 0 (/ 2) [0; 1; 0]]
           [Column [1; 0] 0 (/ 2) [0; 1; 0]; Column [0; 0] 0 (/ 2) [1; 0; 0]]
           [[Column [0; 0] 0 (/ 2) [1; 0; 0]]; []; [Column [1; 0] 0 (/ 2) [0; 1; 0]]]
           [Column [0; 0] 0 (/ 2) [1; 0; 0]] [[Column [1; 0] 0 (/ 2) [0; 1; 0]]]).
  - constructor; repeat constructor.
  - apply perm_swap.
  - reflexivity.
  - reflexivity.
  - repeat constructor; discriminate.
  - repeat constructor; simpl; lra.
  - lra.
Defined.

Lemma empty_input_rejected_witness :
  Sinkhorn.solve
    {| Sinkhorn.p := 2; Sinkhorn.blur := 5 / 100; Sinkhorn.scaling := 9 / 10;
       Sinkhorn.reach := None; Sinkhorn.debias := false;
       Sinkhorn.tol := / 1000; Sinkhorn.max_iter := 100 |}
    {| Sinkhorn.points := []; Sinkhorn.weights := [] |}
    {| Sinkhorn.points := [[0; 0]]; Sinkhorn.weights := [1] |}
  = (inl Sinkhorn.EmptyInput, 0%nat).
Proof.
  apply empty_input_rejected. left. reflexivity.
Defined.

Lemma reach_only_through_potentials_witness :
  (fun (_ : Script.SamplesLoss_args) (_ _ : tensor) => ([0], [0]))
    Script.unbalanced_args [[0; 0]] [[0; 0]]
  = (fun (_ : Script.SamplesLoss_args) (_ _ : tensor) => ([0], [0]))
      Script.balanced_args [[0; 0]] [[0; 0]]
  /\ option_map fst
       (Script.unbalanced_run (fun _ _ _ => ([0], [0])) false
          [[0; 0]] [[0; 0]] [[1; 0; 0]] Script.start)
     = option_map fst
         (Script.balanced_run (fun _ _ _ => ([0], [0])) false
            [[0; 0]] [[0; 0]] [[1; 0; 0]] Script.start).
Proof.
  split; [reflexivity|].
  apply (proj2 (proj2 (proj2 (reach_only_through_potentials (fun _ _ _ => ([0], [0]))
           false [[0; 0]] [[0; 0]] [[1; 0; 0]] Script.start Script.start)))).
  reflexivity.
Defined.


(** ** Further properties of the kernel *)

Lemma apply_transfer_shape_core E X Y F G L M :
  well_shaped X Y F G L ->
  exists labels_i,
    apply_transfer E X Y F G L M = Some labels_i
    /\ length labels_i = length X
    /\ Forall (fun l => length l = 3%nat) labels_i.
Proof.
  intros WS. unfold apply_transfer. rewrite (transfer_rows E X Y F G L WS).
  cbn [option_map]. eexists; split; [reflexivity|]. split.
  - unfold tdiv. rewrite !length_map, length_seq. reflexivity.
  - unfold tdiv. rewrite !Forall_map. apply Forall_forall. intros i _.
    rewrite length_map. apply vsum_list_length.
    rewrite Forall_map. apply Forall_forall. intros j Hj. apply in_seq in Hj.
    rewrite vscale_length. apply (length_L_j X Y F G L WS). lia.
Qed.

(** X1. On well-shaped data the label transfer returns one label of size 3
    for every point of the first cloud. *)
Theorem apply_transfer_shape E X Y F G L M :
  well_shaped X Y F G L ->
  exists labels_i,
    apply_transfer E X Y F G L M = Some labels_i
    /\ length labels_i = length X
    /\ Forall (fun l => length l = 3%nat) labels_i.
Proof. exact (apply_transfer_shape_core E X Y F G L M). Qed.

Lemma apply_transfer_shape_witness :
  well_shaped [[0; 0]] [[0; 0]] [0] [0] [[1; 0; 0]]
  /\ exists labels_i,
       apply_transfer 1 [[0; 0]] [[0; 0]] [0] [0] [[1; 0; 0]] 1 = Some labels_i
       /\ length labels_i = 1%nat
       /\ Forall (fun l => length l = 3%nat) labels_i.
Proof.
  split.
  - constructor; repeat constructor.
  - apply (apply_transfer_shape 1 [[0; 0]] [[0; 0]] [0] [0] [[1; 0; 0]] 1).
    constructor; repeat constructor.
Defined.

(** The kernel refuses arguments whose numbers of rows disagree. *)
Lemma rows_of_env_i E X Y F G L :
  size_of Vi (transfer_env E X Y F G L)
  = if (length F =? length X)%nat then Some (length F) else None.
Proof.
  unfold size_of, transfer_env; simpl. rewrite view_col_length.
  destruct (length F =? length X)%nat; reflexivity.
Qed.

Lemma rows_of_env_j E X Y F G L :
  size_of Vj (transfer_env E X Y F G L)
  = if ((length L =? length G) && (length L =? length Y))%nat%bool
    then Some (length L) else None.
Proof.
  unfold size_of, transfer_env; simpl. rewrite view_col_length.
  destruct (length L =? length G)%nat; simpl; [|reflexivity].
  destruct (length L =? length Y)%nat; reflexivity.
Qed.

Lemma transfer_size_mismatch_core E X Y F G L :
  length F <> length X \/ length G <> length Y \/ length L <> length Y ->
  transfer [ [[E]]; X; Y; view_col F; view_col G; L ] = None.
Proof.
  intros H. unfold transfer, generic_sum.
  change (zip_env transfer_aliases [[[E]]; X; Y; view_col F; view_col G; L])
    with (Some (transfer_env E X Y F G L)).
  cbn [bind]. rewrite rows_of_env_i.
  destruct (Nat.eqb_spec (length F) (length X)) as [HF | HF]; [|reflexivity].
  cbn [bind]. rewrite rows_of_env_j.
  destruct (Nat.eqb_spec (length L) (length G)) as [HG | HG]; [|reflexivity].
  destruct (Nat.eqb_spec (length L) (length Y)) as [HL | HL]; [|reflexivity].
  exfalso. destruct H as [H | [H | H]]; [contradiction | apply H; congruence | contradiction].
Qed.

(** X2. A call whose potentials or labels do not come one per point is an
    error: the kernel returns nothing when F and X, or G, L and Y, differ in
    their numbers of rows. *)
Theorem transfer_size_mismatch E X Y F G L :
  length F <> length X \/ length G <> length Y \/ length L <> length Y ->
  transfer [ [[E]]; X; Y; view_col F; view_col G; L ] = None.
Proof. exact (transfer_size_mismatch_core E X Y F G L). Qed.

Lemma transfer_size_mismatch_witness :
  length [0; 0] <> length [[0; 0]]
  /\ transfer [ [[1]]; [[0; 0]]; [[0; 0]]; view_col [0; 0]; view_col [0]; [[1; 0; 0]] ]
     = None.
Proof.
  split; [simpl; lia|].
  apply (transfer_size_mismatch 1 [[0; 0]] [[0; 0]] [0; 0] [0] [[1; 0; 0]]).
  left. simpl. lia.
Defined.

(** *** Linearity in the labels *)

Lemma vadd_swap a b c d : vadd (vadd a b) (vadd c d) = vadd (vadd a c) (vadd b d).
Proof.
  rewrite <- (vadd_assoc a b), (vadd_assoc b c d), (vadd_comm b c).
  rewrite <- (vadd_assoc c b d), vadd_assoc. reflexivity.
Qed.

Lemma vadd_zeros_zeros d : vadd (zeros d) (zeros d) = zeros d.
Proof.
  unfold vadd, zeros. induction d as [|d IH]; simpl; auto.
  rewrite IH, Rplus_0_l. reflexivity.
Qed.

Lemma vsum_list_vadd {A} d (a b : A -> vec) js :
  vsum_list d (map (fun j => vadd (a j) (b j)) js)
  = vadd (vsum_list d (map a js)) (vsum_list d (map b js)).
Proof.
  induction js as [|j js IH]; simpl.
  - symmetry. apply vadd_zeros_zeros.
  - rewrite IH. apply vadd_swap.
Qed.

Lemma vscale_vscale c e v : vscale c (vscale e v) = vscale e (vscale c v).
Proof.
  unfold vscale. rewrite !map_map. apply map_ext. intros a. ring.
Qed.

Lemma nth_tadd s t j :
  length s = length t -> nth j (tadd s t) [] = vadd (nth j s []) (nth j t []).
Proof.
  revert t j; induction s as [|u s IH]; intros [|v t] j H; simpl in *; try discriminate.
  - destruct j; reflexivity.
  - destruct j; [reflexivity|]. apply IH. congruence.
Qed.

Lemma tadd_length s t : length s = length t -> length (tadd s t) = length s.
Proof.
  revert t; induction s as [|u s IH]; intros [|v t] H; simpl in *; try discriminate; auto.
Qed.

Lemma tadd_rows d s t :
  Forall (fun l => length l = d) s -> Forall (fun l => length l = d) t ->
  Forall (fun l => length l = d) (tadd s t).
Proof.
  intros Hs; revert t; induction Hs as [|u s Hu _ IH]; intros t Ht; simpl; auto.
  destruct Ht as [|v t Hv Ht]; constructor.
  - rewrite vadd_length, Hu, Hv. apply Nat.min_id.
  - apply IH, Ht.
Qed.

(** X3. The kernel is linear in the labels: the transfer of the sum of two
    label fields is the sum of their transfers, and the transfer of a label
    field scaled by [c] is the transfer scaled by [c]. *)
Theorem transfer_linear E X Y F G L L' c :
  well_shaped X Y F G L -> well_shaped X Y F G L' ->
  exists t t',
    transfer [ [[E]]; X; Y; view_col F; view_col G; L ] = Some t
    /\ transfer [ [[E]]; X; Y; view_col F; view_col G; L' ] = Some t'
    /\ transfer [ [[E]]; X; Y; view_col F; view_col G; tadd L L' ] = Some (tadd t t')
    /\ transfer [ [[E]]; X; Y; view_col F; view_col G; map (vscale c) L ]
       = Some (map (vscale c) t).
Proof.
  intros WS WS'.
  assert (HLL : length L = length L')
    by (rewrite (ws_LY _ _ _ _ _ WS), (ws_LY _ _ _ _ _ WS'); reflexivity).
  assert (WSa : well_shaped X Y F G (tadd L L')).
  { destruct WS, WS'. constructor; auto.
    - apply tadd_rows; assumption.
    - rewrite tadd_length; assumption. }
  assert (WSc : well_shaped X Y F G (map (vscale c) L)).
  { destruct WS. constructor; auto.
    - rewrite Forall_map. eapply Forall_impl; [|eassumption].
      intros l Hl. cbv beta. rewrite vscale_length. exact Hl.
    - rewrite length_map. assumption. }
  rewrite (transfer_rows _ _ _ _ _ _ WS), (transfer_rows _ _ _ _ _ _ WS'),
    (transfer_rows _ _ _ _ _ _ WSa), (transfer_rows _ _ _ _ _ _ WSc).
  eexists; eexists. split; [reflexivity|]. split; [reflexivity|]. split.
  - f_equal. rewrite tadd_map. apply map_ext. intros i.
    rewrite <- vsum_list_vadd. f_equal. apply map_ext. intros j.
    rewrite nth_tadd by exact HLL. apply vscale_vadd.
  - f_equal. rewrite map_map. apply map_ext. intros i.
    rewrite vscale_vsum_list, map_map. f_equal. apply map_ext. intros j.
    change (@nil R) with (vscale c []) at 1. rewrite map_nth.
    apply vscale_vscale.
Qed.

Lemma transfer_linear_witness :
  well_shaped [[0; 0]] [[0; 0]] [0] [0] [[1; 0; 0]]
  /\ well_shaped [[0; 0]] [[0; 0]] [0] [0] [[0; 1; 0]]
  /\ exists t t',
       transfer [ [[1]]; [[0; 0]]; [[0; 0]]; view_col [0]; view_col [0]; [[1; 0; 0]] ]
         = Some t
       /\ transfer [ [[1]]; [[0; 0]]; [[0; 0]]; view_col [0]; view_col [0]; [[0; 1; 0]] ]
          = Some t'
       /\ transfer [ [[1]]; [[0; 0]]; [[0; 0]]; view_col [0]; view_col [0];
                     tadd [[1; 0; 0]] [[0; 1; 0]] ] = Some (tadd t t')
       /\ transfer [ [[1]]; [[0; 0]]; [[0; 0]]; view_col [0]; view_col [0];
                     map (vscale 2) [[1; 0; 0]] ] = Some (map (vscale 2) t).
Proof.
  split; [constructor; repeat constructor|].
  split; [constructor; repeat constructor|].
  apply (transfer_linear 1 [[0; 0]] [[0; 0]] [0] [0] [[1; 0; 0]] [[0; 1; 0]] 2);
    constructor; repeat constructor.
Defined.

(** *** Lines are independent of each other *)

Lemma transfer_rows_map E X Y F G L :
  well_shaped X Y F G L ->
  transfer [ [[E]]; X; Y; view_col F; view_col G; L ]
  = Some (map (fun xf =>
                 vsum_list 3
                   (map (fun j =>
                           vscale (exp ((snd xf + nth j G 0
                                         - / 2 * sqdist (fst xf) (nth j Y [])) / E))
                                  (nth j L []))
                        (seq 0 (length Y))))
              (combine X F)).
Proof.
  intros WS. rewrite (transfer_rows _ _ _ _ _ _ WS). f_equal.
  rewrite <- (map_seq_nth _ (combine X F) ([], 0)).
  rewrite length_combine, (ws_F _ _ _ _ _ WS), Nat.min_id.
  apply map_ext. intros i. rewrite combine_nth by (symmetry; apply (ws_F _ _ _ _ _ WS)).
  reflexivity.
Qed.

Lemma combine_app_eq {A B} (l1 l2 : list A) (m1 m2 : list B) :
  length l1 = length m1 ->
  combine (l1 ++ l2) (m1 ++ m2) = combine l1 m1 ++ combine l2 m2.
Proof.
  revert m1; induction l1 as [|a l1 IH]; intros [|b m1] H; simpl in *;
    try discriminate; auto.
  rewrite IH by congruence. reflexivity.
Qed.

(** X4. Every line of the result depends on its own point and potential only:
    the transfer onto two clouds put end to end is the transfer onto the
    first followed by the transfer onto the second. *)
Theorem transfer_lines_independent E X1 X2 Y F1 F2 G L :
  well_shaped X1 Y F1 G L -> well_shaped X2 Y F2 G L ->
  exists t1 t2,
    transfer [ [[E]]; X1; Y; view_col F1; view_col G; L ] = Some t1
    /\ transfer [ [[E]]; X2; Y; view_col F2; view_col G; L ] = Some t2
    /\ transfer [ [[E]]; X1 ++ X2; Y; view_col (F1 ++ F2); view_col G; L ]
       = Some (t1 ++ t2).
Proof.
  intros WS1 WS2.
  assert (WS : well_shaped (X1 ++ X2) Y (F1 ++ F2) G L).
  { destruct WS1, WS2. constructor; auto.
    - apply Forall_app; split; assumption.
    - rewrite !length_app. congruence. }
  rewrite (transfer_rows_map _ _ _ _ _ _ WS1), (transfer_rows_map _ _ _ _ _ _ WS2),
    (transfer_rows_map _ _ _ _ _ _ WS).
  eexists; eexists. split; [reflexivity|]. split; [reflexivity|].
  f_equal. rewrite <- map_app. f_equal.
  apply combine_app_eq. symmetry. apply (ws_F _ _ _ _ _ WS1).
Qed.

Lemma transfer_lines_independent_witness :
  well_shaped [[0; 0]] [[0; 0]] [0] [0] [[1; 0; 0]]
  /\ well_shaped [[1; 1]] [[0; 0]] [2] [0] [[1; 0; 0]]
  /\ exists t1 t2,
       transfer [ [[1]]; [[0; 0]]; [[0; 0]]; view_col [0]; view_col [0]; [[1; 0; 0]] ]
         = Some t1
       /\ transfer [ [[1]]; [[1; 1]]; [[0; 0]]; view_col [2]; view_col [0]; [[1; 0; 0]] ]
          = Some t2
       /\ transfer [ [[1]]; [[0; 0]] ++ [[1; 1]]; [[0; 0]]; view_col ([0] ++ [2]);
                     view_col [0]; [[1; 0; 0]] ] = Some (t1 ++ t2).
Proof.
  split; [constructor; repeat constructor|].
  split; [constructor; repeat constructor|].
  apply (transfer_lines_independent 1 [[0; 0]] [[1; 1]] [[0; 0]] [0] [2] [0] [[1; 0; 0]]);
    constructor; repeat constructor.
Defined.

(** *** Invariances *)

Lemma nth_map_in {A B} (h : A -> B) (l : list A) i dA dB :
  (i < length l)%nat -> nth i (map h l) dB = h (nth i l dA).
Proof.
  intros Hi. rewrite (nth_indep _ dB (h dA)) by (rewrite length_map; exact Hi).
  apply map_nth.
Qed.

Lemma transfer_rows_ext E X Y F G L X' Y' F' G' :
  well_shaped X Y F G L -> well_shaped X' Y' F' G' L ->
  length X' = length X ->
  (forall i j, (i < length X)%nat -> (j < length Y)%nat ->
     exponent E X' Y' F' G' i j = exponent E X Y F G i j) ->
  transfer [ [[E]]; X'; Y'; view_col F'; view_col G'; L ]
  = transfer [ [[E]]; X; Y; view_col F; view_col G; L ].
Proof.
  intros WS WS' HX Hex.
  assert (HY : length Y' = length Y)
    by (rewrite <- (ws_LY _ _ _ _ _ WS), <- (ws_LY _ _ _ _ _ WS'); reflexivity).
  rewrite (transfer_rows _ _ _ _ _ _ WS), (transfer_rows _ _ _ _ _ _ WS'), HX, HY.
  f_equal. apply map_ext_in. intros i Hi. apply in_seq in Hi.
  f_equal. apply map_ext_in. intros j Hj. apply in_seq in Hj.
  rewrite Hex by lia. reflexivity.
Qed.

(** X5. Moving a constant from one potential to the other changes nothing:
    with [c] added to every F_i and subtracted from every G_j the kernel
    returns the same labels. *)
Theorem transfer_potential_shift E X Y F G L c :
  well_shaped X Y F G L ->
  transfer [ [[E]]; X; Y; view_col (map (fun a => a + c) F);
             view_col (map (fun b => b - c) G); L ]
  = transfer [ [[E]]; X; Y; view_col F; view_col G; L ].
Proof.
  intros WS. apply transfer_rows_ext; auto.
  - destruct WS. constructor; auto; rewrite length_map; assumption.
  - intros i j Hi Hj. unfold exponent.
    rewrite (nth_map_in (fun a => a + c) F i 0 0)
      by (rewrite (ws_F _ _ _ _ _ WS); exact Hi).
    rewrite (nth_map_in (fun b => b - c) G j 0 0)
      by (rewrite (ws_G _ _ _ _ _ WS); exact Hj).
    f_equal. ring.
Qed.

Lemma transfer_potential_shift_witness :
  well_shaped [[0; 0]] [[0; 0]] [0] [0] [[1; 0; 0]]
  /\ transfer [ [[1]]; [[0; 0]]; [[0; 0]]; view_col (map (fun a => a + 7) [0]);
                view_col (map (fun b => b - 7) [0]); [[1; 0; 0]] ]
     = transfer [ [[1]]; [[0; 0]]; [[0; 0]]; view_col [0]; view_col [0]; [[1; 0; 0]] ].
Proof.
  split; [constructor; repeat constructor|].
  apply (transfer_potential_shift 1 [[0; 0]] [[0; 0]] [0] [0] [[1; 0; 0]] 7).
  constructor; repeat constructor.
Defined.

Lemma sqdist_translate t x y :
  (length x <= length t)%nat -> sqdist (vadd t x) (vadd t y) = sqdist x y.
Proof.
  unfold sqdist, vadd. revert x y; induction t as [|a t IH]; intros [|b x] [|c y] H;
    simpl in *; try reflexivity; try lia.
  fold (vsum (zipWith (fun a0 b0 => (a0 - b0) * (a0 - b0)) (zipWith Rplus t x)
                      (zipWith Rplus t y))).
  fold (vsum (zipWith (fun a0 b0 => (a0 - b0) * (a0 - b0)) x y)).
  rewrite IH by lia. ring.
Qed.

(** X6. The kernel sees the points through their differences only: moving
    both clouds by the same vector of the plane leaves the labels unchanged. *)
Theorem transfer_translation E X Y F G L t :
  well_shaped X Y F G L -> length t = 2%nat ->
  transfer [ [[E]]; map (vadd t) X; map (vadd t) Y; view_col F; view_col G; L ]
  = transfer [ [[E]]; X; Y; view_col F; view_col G; L ].
Proof.
  intros WS Ht. apply transfer_rows_ext; auto.
  - destruct WS. constructor; auto; try (rewrite length_map; assumption).
    + rewrite Forall_map. eapply Forall_impl; [|eassumption].
      intros x Hx. cbv beta. rewrite vadd_length, Ht, Hx. reflexivity.
    + rewrite Forall_map. eapply Forall_impl; [|eassumption].
      intros y Hy. cbv beta. rewrite vadd_length, Ht, Hy. reflexivity.
  - apply length_map.
  - intros i j Hi Hj. unfold exponent.
    rewrite (nth_map_in (vadd t) X i [] []) by exact Hi.
    rewrite (nth_map_in (vadd t) Y j [] []) by exact Hj.
    rewrite sqdist_translate; [reflexivity|].
    rewrite (Forall_nth_length X 2 i (ws_X _ _ _ _ _ WS) Hi), Ht. lia.
Qed.

Lemma transfer_translation_witness :
  well_shaped [[0; 0]] [[1; 0]] [0] [0] [[1; 0; 0]]
  /\ length [5; 3] = 2%nat
  /\ transfer [ [[1]]; map (vadd [5; 3]) [[0; 0]]; map (vadd [5; 3]) [[1; 0]];
                view_col [0]; view_col [0]; [[1; 0; 0]] ]
     = transfer [ [[1]]; [[0; 0]]; [[1; 0]]; view_col [0]; view_col [0]; [[1; 0; 0]] ].
Proof.
  split; [constructor; repeat constructor|]. split; [reflexivity|].
  apply (transfer_translation 1 [[0; 0]] [[1; 0]] [0] [0] [[1; 0; 0]] [5; 3]).
  - constructor; repeat constructor.
  - reflexivity.
Defined.

(** *** Sign of the labels, and their display *)

Lemma vadd_nonneg u v :
  Forall (fun a => 0 <= a) u -> Forall (fun a => 0 <= a) v ->
  Forall (fun a => 0 <= a) (vadd u v).
Proof.
  unfold vadd. intros Hu; revert v; induction Hu as [|a u Ha _ IH]; intros v Hv; simpl; auto.
  destruct Hv as [|b v Hb Hv]; constructor; [lra | apply IH, Hv].
Qed.

Lemma zeros_nonneg d : Forall (fun a => 0 <= a) (zeros d).
Proof. unfold zeros. induction d; simpl; constructor; [lra | assumption]. Qed.

Lemma vscale_nonneg c v :
  0 <= c -> Forall (fun a => 0 <= a) v -> Forall (fun a => 0 <= a) (vscale c v).
Proof.
  intros Hc Hv. unfold vscale. rewrite Forall_map.
  eapply Forall_impl; [|exact Hv]. intros a Ha. cbv beta. nra.
Qed.

Lemma vsum_list_nonneg d l :
  Forall (Forall (fun a => 0 <= a)) l -> Forall (fun a => 0 <= a) (vsum_list d l).
Proof.
  induction 1 as [|v l Hv _ IH]; simpl; [apply zeros_nonneg | apply vadd_nonneg; assumption].
Qed.

Lemma vsum_nonneg v : Forall (fun a => 0 <= a) v -> 0 <= vsum v.
Proof. unfold vsum. induction 1; simpl; lra. Qed.

Lemma entry_le_vsum v :
  Forall (fun a => 0 <= a) v -> Forall (fun a => a <= vsum v) v.
Proof.
  induction 1 as [|a v Ha Hv IH]; constructor.
  - change (vsum (a :: v)) with (a + vsum v). pose proof (vsum_nonneg v Hv). lra.
  - eapply Forall_impl; [|exact IH]. intros b Hb.
    change (vsum (a :: v)) with (a + vsum v). cbv beta in Hb. lra.
Qed.

Lemma clamp_unit_id v :
  Forall (fun a => 0 <= a <= 1) v -> map (fun a => Rmin (Rmax a 0) 1) v = v.
Proof.
  induction 1 as [|a v Ha _ IH]; simpl; auto.
  rewrite IH, Rmax_left, Rmin_left by lra. reflexivity.
Qed.

(** X7. Labels that are not negative are transferred to labels that are not
    negative; the [clamp(0,1)] of the display then changes nothing on the
    lines whose sum is at most 1. *)
Theorem transfer_nonneg E X Y F G L :
  well_shaped X Y F G L -> nonneg L -> Y <> [] ->
  exists labels_i,
    apply_transfer E X Y F G L (length Y) = Some labels_i
    /\ nonneg labels_i
    /\ (Forall (fun s => s <= 1) (sum1 labels_i) -> clamp 0 1 labels_i = labels_i).
Proof.
  intros WS HL HY. unfold apply_transfer.
  rewrite (transfer_rows _ _ _ _ _ _ WS). cbn [option_map].
  eexists; split; [reflexivity|].
  assert (HM : 0 < INR (length Y)).
  { apply lt_0_INR. destruct Y; [congruence | simpl; lia]. }
  assert (Hnn : nonneg (tdiv (map (fun i =>
             vsum_list 3 (map (fun j => vscale (exp (exponent E X Y F G i j)) (nth j L []))
                              (seq 0 (length Y)))) (seq 0 (length X))) (length Y))).
  { unfold nonneg, tdiv. rewrite !Forall_map. apply Forall_forall. intros i _.
    rewrite Forall_map.
    eapply Forall_impl; [|apply vsum_list_nonneg].
    - intros a Ha. cbv beta. unfold Rdiv.
      assert (0 < / INR (length Y)) by (apply Rinv_0_lt_compat, HM). nra.
    - rewrite Forall_map. apply Forall_forall. intros j _.
      apply vscale_nonneg; [left; apply exp_pos|].
      destruct (Nat.lt_ge_cases j (length L)) as [Hj | Hj].
      + unfold nonneg in HL. rewrite Forall_forall in HL. apply HL, nth_In, Hj.
      + rewrite nth_overflow by exact Hj. constructor. }
  split; [exact Hnn|].
  intros Hsum. unfold clamp. unfold nonneg in Hnn. unfold sum1 in Hsum.
  rewrite Forall_map in Hsum.
  set (t := tdiv _ _) in *. clearbody t.
  induction t as [|v t IH]; simpl; auto.
  inversion Hnn as [|? ? Hv Ht]; subst. inversion Hsum as [|? ? Hs Hss]; subst.
  rewrite IH by assumption. f_equal.
  apply clamp_unit_id. pose proof (entry_le_vsum v Hv) as Hle.
  rewrite Forall_forall in *. intros a Ha. split; [apply Hv, Ha|].
  specialize (Hle a Ha). cbv beta in Hle. lra.
Qed.

Lemma transfer_nonneg_witness :
  well_shaped [[0; 0]] [[0; 0]] [0] [0] [[1; 0; 0]]
  /\ nonneg [[1; 0; 0]]
  /\ [[0; 0]] <> []
  /\ exists labels_i,
       apply_transfer 1 [[0; 0]] [[0; 0]] [0] [0] [[1; 0; 0]] 1 = Some labels_i
       /\ nonneg labels_i.
Proof.
  assert (WS : well_shaped [[0; 0]] [[0; 0]] [0] [0] [[1; 0; 0]])
    by (constructor; repeat constructor).
  assert (HL : nonneg [[1; 0; 0]]) by (repeat constructor; lra).
  assert (HY : [[0; 0]] <> (@nil vec)) by discriminate.
  split; [exact WS|]. split; [exact HL|]. split; [exact HY|].
  destruct (transfer_nonneg 1 [[0; 0]] [[0; 0]] [0] [0] [[1; 0; 0]] WS HL HY)
    as (labels_i & Hrun & Hnn & _).
  exists labels_i. split; [exact Hrun | exact Hnn].
Defined.

(** *** The printed deviation *)

Lemma vsum_nonneg_zero v :
  Forall (fun a => 0 <= a) v -> vsum v = 0 -> Forall (fun a => a = 0) v.
Proof.
  induction 1 as [|a v Ha Hv IH]; intros Hs; constructor.
  - change (vsum (a :: v)) with (a + vsum v) in Hs.
    pose proof (vsum_nonneg v Hv). lra.
  - apply IH. change (vsum (a :: v)) with (a + vsum v) in Hs.
    pose proof (vsum_nonneg v Hv). lra.
Qed.

(** X8. The number the script prints, [(labels_i.sum(1) - 1).abs().mean()],
    is never negative, and for at least one line it is zero exactly when
    every line sums to 1. *)
Theorem printed_deviation_zero (sums : vec) :
  sums <> [] ->
  0 <= mean (abs_dev sums)
  /\ (mean (abs_dev sums) = 0 <-> Forall (fun s => s = 1) sums).
Proof.
  intros Hne.
  assert (Hn : 0 < INR (length (abs_dev sums))).
  { apply lt_0_INR. unfold abs_dev. rewrite length_map.
    destruct sums; [congruence | simpl; lia]. }
  assert (Hnn : Forall (fun a => 0 <= a) (abs_dev sums)).
  { unfold abs_dev. rewrite Forall_map. apply Forall_forall. intros s _. apply Rabs_pos. }
  assert (Hi : 0 < / INR (length (abs_dev sums))) by (apply Rinv_0_lt_compat, Hn).
  pose proof (vsum_nonneg _ Hnn) as Hs.
  unfold mean, Rdiv. split; [nra|]. split.
  - intros H0. assert (Hz : vsum (abs_dev sums) = 0) by nra.
    pose proof (vsum_nonneg_zero _ Hnn Hz) as Hall.
    unfold abs_dev in Hall. rewrite Forall_map in Hall.
    eapply Forall_impl; [|exact Hall]. intros s Hs0. cbv beta in Hs0.
    destruct (Req_dec (s - 1) 0) as [He | He]; [lra|].
    apply Rabs_no_R0 in He. contradiction.
  - intros Hall. replace (vsum (abs_dev sums)) with 0; [ring|].
    clear -Hall. induction Hall as [|s sums Hs _ IH]; [reflexivity|].
    change (vsum (abs_dev (s :: sums))) with (Rabs (s - 1) + vsum (abs_dev sums)).
    rewrite <- IH, Hs, Rminus_diag, Rabs_R0. ring.
Qed.

Lemma printed_deviation_zero_witness :
  [1; 1] <> []
  /\ 0 <= mean (abs_dev [1; 1])
  /\ (mean (abs_dev [1; 1]) = 0 <-> Forall (fun s => s = 1) [1; 1]).
Proof.
  split; [discriminate|].
  apply (printed_deviation_zero [1; 1]). discriminate.
Defined.

(** ** Images *)

Lemma byte_unit b : (0 <= b <= 255)%Z -> 0 <= IZR b / 255 <= 1.
Proof.
  intros [H0 H1]. apply IZR_le in H0, H1. lra.
Qed.

Lemma firstn_Forall {T} (P : T -> Prop) n l : Forall P l -> Forall P (firstn n l).
Proof.
  intros H. rewrite Forall_forall in *. intros a Ha. apply H.
  rewrite <- (firstn_skipn n l). apply in_or_app. left; exact Ha.
Qed.

Lemma load_image_spec_core (raw : raw_image) (H W C : nat) :
  rect H W C raw -> byte_image raw -> (3 <= C)%nat ->
  rect H W 3 (load_image raw)
  /\ unit_image (load_image raw)
  /\ forall r, (r < H)%nat ->
       nth r (load_image raw) []
       = map (fun px => map (fun b => IZR b / 255) (firstn 3 px)) (nth (H - 1 - r) raw []).
Proof.
  intros [HH Hrows] Hbytes HC. unfold load_image. repeat split.
  - rewrite length_map, length_rev. exact HH.
  - rewrite Forall_map. apply Forall_rev.
    eapply Forall_impl; [|exact Hrows]. intros row [Hw Hpx]. split.
    + rewrite length_map. exact Hw.
    + rewrite Forall_map. eapply Forall_impl; [|exact Hpx].
      intros px Hc. cbv beta. rewrite length_map, length_firstn, Hc. lia.
  - unfold unit_image. rewrite Forall_map. apply Forall_rev.
    eapply Forall_impl; [|exact Hbytes]. intros row Hrow. cbv beta.
    rewrite Forall_map. eapply Forall_impl; [|exact Hrow]. intros px Hpx. cbv beta.
    rewrite Forall_map. apply firstn_Forall.
    eapply Forall_impl; [|exact Hpx]. intros b Hb. apply byte_unit, Hb.
  - intros r Hr.
    rewrite (nth_map_in _ (rev raw) r [] []) by (rewrite length_rev; lia).
    rewrite rev_nth by lia. rewrite HH.
    replace (H - S r)%nat with (H - 1 - r)%nat by lia. reflexivity.
Qed.

(** X9. [load_image] turns an array of bytes with at least three channels
    into an image of the same height and width with exactly three channels,
    every value between 0 and 1, whose row [r] is row [H - 1 - r] of the
    array: the image is flipped top to bottom and loses its alpha channel. *)
Theorem load_image_spec (raw : raw_image) (H W C : nat) :
  rect H W C raw -> byte_image raw -> (3 <= C)%nat ->
  rect H W 3 (load_image raw)
  /\ unit_image (load_image raw)
  /\ forall r, (r < H)%nat ->
       nth r (load_image raw) []
       = map (fun px => map (fun b => IZR b / 255) (firstn 3 px)) (nth (H - 1 - r) raw []).
Proof. exact (load_image_spec_core raw H W C). Qed.

Lemma load_image_spec_witness :
  rect 2 1 4 [[[255; 0; 0; 255]]; [[0; 0; 255; 255]]]%Z
  /\ byte_image [[[255; 0; 0; 255]]; [[0; 0; 255; 255]]]%Z
  /\ (3 <= 4)%nat
  /\ rect 2 1 3 (load_image [[[255; 0; 0; 255]]; [[0; 0; 255; 255]]]%Z)
  /\ unit_image (load_image [[[255; 0; 0; 255]]; [[0; 0; 255; 255]]]%Z).
Proof.
  assert (Hr : rect 2 1 4 [[[255; 0; 0; 255]]; [[0; 0; 255; 255]]]%Z)
    by (split; [reflexivity | repeat constructor]).
  assert (Hb : byte_image [[[255; 0; 0; 255]]; [[0; 0; 255; 255]]]%Z)
    by (repeat constructor; lia).
  assert (Hc : (3 <= 4)%nat) by lia.
  pose proof (load_image_spec _ 2 1 4 Hr Hb Hc) as H.
  split; [exact Hr|]. split; [exact Hb|]. split; [exact Hc|].
  split; [exact (proj1 H) | exact (proj1 (proj2 H))].
Defined.

(** ** The sampling density *)

Lemma gray_nonneg A :
  unit_image A -> Forall (fun a => 0 <= a) (ravel (gray A)).
Proof.
  unfold unit_image, ravel, gray. intros HA. apply Forall_concat.
  rewrite Forall_map. eapply Forall_impl; [|exact HA]. intros row Hrow. cbv beta.
  rewrite Forall_map. eapply Forall_impl; [|exact Hrow]. intros px Hpx. cbv beta.
  apply vsum_nonneg. rewrite Forall_map.
  eapply Forall_impl; [|exact Hpx]. intros a Ha. cbv beta in *. lra.
Qed.

Lemma dens_probability_core (A : image) :
  unit_image A -> vsum (ravel (gray A)) <> 0 ->
  Forall (fun d => 0 <= d) (dens_of A)
  /\ vsum (dens_of A) = 1
  /\ length (dens_of A) = length (ravel (gray A)).
Proof.
  intros HA Hne. pose proof (gray_nonneg A HA) as Hg.
  pose proof (vsum_nonneg _ Hg) as Ht.
  assert (Hpos : 0 < vsum (ravel (gray A))) by lra.
  assert (Hinv : 0 < / vsum (ravel (gray A))) by (apply Rinv_0_lt_compat, Hpos).
  unfold dens_of. repeat split.
  - rewrite Forall_map. eapply Forall_impl; [|exact Hg].
    intros a Ha. cbv beta. unfold Rdiv. nra.
  - unfold Rdiv. rewrite (vsum_map_scale_r (fun a => a)), map_id.
    apply Rinv_r, Hne.
  - apply length_map.
Qed.

(** X10. The density of [draw_samples] is a probability vector: on an image
    with values between 0 and 1 that is not white everywhere, the weights
    handed to [choices] are not negative and sum to 1, one per pixel. *)
Theorem dens_probability (A : image) :
  unit_image A -> vsum (ravel (gray A)) <> 0 ->
  Forall (fun d => 0 <= d) (dens_of A)
  /\ vsum (dens_of A) = 1
  /\ length (dens_of A) = length (ravel (gray A)).
Proof. exact (dens_probability_core A). Qed.

Lemma dens_probability_witness :
  unit_image [[[1; 0; 0]; [1; 1; 1]]]
  /\ vsum (ravel (gray [[[1; 0; 0]; [1; 1; 1]]])) <> 0
  /\ vsum (dens_of [[[1; 0; 0]; [1; 1; 1]]]) = 1.
Proof.
  assert (HA : unit_image [[[1; 0; 0]; [1; 1; 1]]]) by (repeat constructor; lra).
  assert (Hne : vsum (ravel (gray [[[1; 0; 0]; [1; 1; 1]]])) <> 0)
    by (unfold ravel, gray, vsum; simpl; lra).
  split; [exact HA|]. split; [exact Hne|].
  exact (proj1 (proj2 (dens_probability _ HA Hne))).
Defined.

(** ** The grid *)

Lemma nth_error_concat_uniform {T} (l : list (list T)) (H k : nat) :
  Forall (fun r => length r = H) l -> H <> 0%nat ->
  nth_error (concat l) k
  = match nth_error l (k / H) with
    | Some r => nth_error r (k mod H)
    | None => None
    end.
Proof.
  intros Hl HH. revert k; induction Hl as [|r l Hr _ IH]; intros k; simpl.
  - destruct k; destruct (_ / _)%nat; reflexivity.
  - destruct (Nat.lt_ge_cases k H) as [Hk | Hk].
    + rewrite nth_error_app1 by lia.
      rewrite Nat.div_small, Nat.mod_small by lia. reflexivity.
    + rewrite nth_error_app2 by lia. rewrite Hr, IH.
      assert (Hd : (k / H = S ((k - H) / H))%nat).
      { pose proof (Nat.div_add (k - H) 1 H HH) as Hq.
        replace (k - H + 1 * H)%nat with k in Hq by lia. lia. }
      assert (Hm : (k mod H = (k - H) mod H)%nat).
      { pose proof (Nat.Div0.mod_add (k - H) 1 H) as Hq.
        replace (k - H + 1 * H)%nat with k in Hq by lia. exact Hq. }
      rewrite Hd, Hm. reflexivity.
Qed.

Lemma nth_error_combine {S T} (a : list S) (b : list T) k x y :
  nth_error a k = Some x -> nth_error b k = Some y ->
  nth_error (combine a b) k = Some (x, y).
Proof.
  revert b k; induction a as [|a0 a IH]; intros [|b0 b] [|k] Ha Hb; simpl in *;
    try discriminate.
  - congruence.
  - apply IH; assumption.
Qed.

Lemma concat_uniform_length {T} (l : list (list T)) H :
  Forall (fun r => length r = H) l -> length (concat l) = (length l * H)%nat.
Proof.
  induction 1 as [|r l Hr _ IH]; simpl; auto. rewrite length_app, Hr, IH. reflexivity.
Qed.

Lemma rect_shape1 {T} H W C (A : list (list (list T))) :
  rect H W C A -> H <> 0%nat -> shape1 A = W.
Proof.
  intros [HH Hrows] H0. unfold shape1. destruct Hrows as [|row A [Hw _] _].
  - simpl in HH. congruence.
  - exact Hw.
Qed.

(** The grid of an image of [H] rows and [W] columns has [W*H] points; the
    point at position [k] is [(k mod H, k / H)]. *)
Lemma grid_of_nth H W C (A : image) k :
  rect H W C A -> (k < W * H)%nat ->
  nth_error (grid_of A) k = Some ((k mod H)%nat, (k / H)%nat).
Proof.
  intros HA Hk.
  assert (H0 : H <> 0%nat) by (intros ->; lia).
  unfold grid_of, meshgrid, arange, ravel. cbn [fst snd].
  assert (Hs1 : shape1 A = W) by (apply (rect_shape1 H W C A HA H0)).
  assert (Hs0 : shape0 A = H) by (apply (proj1 HA)).
  rewrite Hs1, Hs0.
  assert (Hq : (k / H < W)%nat) by (apply Nat.Div0.div_lt_upper_bound; lia).
  assert (Hm : (k mod H < H)%nat) by (apply Nat.mod_upper_bound, H0).
  apply nth_error_combine.
  - rewrite (nth_error_concat_uniform _ H k); [|rewrite Forall_map; apply Forall_forall;
      intros; apply length_seq | exact H0].
    rewrite nth_error_map, nth_error_seq.
    destruct (Nat.ltb_spec (k / H) W); [|lia]. cbn.
    rewrite nth_error_seq. destruct (Nat.ltb_spec (k mod H) H); [|lia]. reflexivity.
  - rewrite (nth_error_concat_uniform _ H k); [|rewrite Forall_map; apply Forall_forall;
      intros; rewrite length_map; apply length_seq | exact H0].
    rewrite nth_error_map, nth_error_seq.
    destruct (Nat.ltb_spec (k / H) W); [|lia]. cbn.
    rewrite nth_error_map, nth_error_seq.
    destruct (Nat.ltb_spec (k mod H) H); [|lia]. reflexivity.
Qed.

Lemma grid_of_length H W C (A : image) :
  rect H W C A -> H <> 0%nat -> length (grid_of A) = (W * H)%nat.
Proof.
  intros HA H0. unfold grid_of, meshgrid, arange, ravel. cbn [fst snd].
  assert (Hs1 : shape1 A = W) by (apply (rect_shape1 H W C A HA H0)).
  assert (Hs0 : shape0 A = H) by (apply (proj1 HA)).
  rewrite Hs1, Hs0.
  rewrite length_combine.
  rewrite (concat_uniform_length _ H), (concat_uniform_length _ H).
  - rewrite !length_map, length_seq. lia.
  - rewrite Forall_map. apply Forall_forall. intros; rewrite length_map; apply length_seq.
  - rewrite Forall_map. apply Forall_forall. intros; apply length_seq.
Qed.

Lemma gray_length H W C (A : image) :
  rect H W C A -> length (ravel (gray A)) = (H * W)%nat.
Proof.
  intros [HH Hrows]. unfold ravel, gray.
  rewrite (concat_uniform_length _ W).
  - rewrite length_map, HH. reflexivity.
  - rewrite Forall_map. eapply Forall_impl; [|exact Hrows].
    intros row [Hw _]. cbv beta. rewrite length_map. exact Hw.
Qed.

(** ** Drawing samples *)

Lemma sequence_none {T} (l : list (option T)) : In None l -> sequence l = None.
Proof.
  induction l as [|o l IH]; intros Hin; [contradiction|].
  simpl. destruct o as [a|]; [|reflexivity]. cbn.
  rewrite IH; [reflexivity|]. destruct Hin as [H | H]; [discriminate | exact H].
Qed.

Lemma combine_map_r {S T U} (f : T -> U) (a : list S) (b : list T) :
  combine a (map f b) = map (fun st => (fst st, f (snd st))) (combine a b).
Proof.
  revert b; induction a as [|x a IH]; intros [|y b]; simpl; auto.
  rewrite IH. reflexivity.
Qed.

Lemma match_nonempty {T U} (l : list T) (e : option U) :
  l <> [] -> match l with [] => None | _ :: _ => e end = e.
Proof. destruct l; [congruence | reflexivity]. Qed.

Section Draw.
Variables (raw : raw_image) (H W C : nat).
Variable draws : list nat.
Variable noise : nat -> nat -> R.
Hypothesis Hrect : rect H W C raw.
Hypothesis Hbytes : byte_image raw.
Hypothesis HC : (3 <= C)%nat.
Hypothesis Hink : vsum (ravel (gray (load_image raw))) <> 0.
Hypothesis Hdraws : draws <> [].
Hypothesis Hrange : Forall (fun k => (k < W * H)%nat) draws.

Lemma loaded_rect : rect H W 3 (load_image raw).
Proof. apply (load_image_spec_core raw H W C Hrect Hbytes HC). Qed.

Lemma image_not_empty : H <> 0%nat.
Proof.
  destruct draws as [|k ds]; [congruence|]. inversion Hrange; subst. intros ->. lia.
Qed.

Lemma choices_grid :
  choices (grid_of (load_image raw)) (dens_of (load_image raw)) draws
  = Some (map (fun k => ((k mod H)%nat, (k / H)%nat)) draws).
Proof.
  pose proof (load_image_spec_core raw H W C Hrect Hbytes HC) as (HA & HU & _).
  pose proof (dens_probability_core _ HU Hink) as (_ & Hsum & Hlen).
  unfold choices.
  rewrite Hlen, (gray_length H W 3 _ HA), (grid_of_length H W 3 _ HA image_not_empty).
  rewrite (Nat.mul_comm H W), Nat.eqb_refl. cbn [negb].
  destruct (Rle_dec (vsum (dens_of (load_image raw))) 0) as [Hle | _]; [lra|].
  apply sequence_map_some. intros k Hk.
  rewrite Forall_forall in Hrange. apply (grid_of_nth H W 3 _ k HA), Hrange, Hk.
Qed.

Lemma samples_of_dots :
  map (fun sd => vadd (snd sd)
                   [ 5 / 10 / INR (shape0 (load_image raw)) * noise (fst sd) 0%nat;
                     5 / 10 / INR (shape0 (load_image raw)) * noise (fst sd) 1%nat ])
      (combine
         (seq 0 (length
                   (map (fun d : nat * nat =>
                           [ (INR (fst d) + 5 / 10) / INR (shape0 (load_image raw));
                             (INR (snd d) + 5 / 10) / INR (shape1 (load_image raw)) ])
                        (map (fun k => ((k mod H)%nat, (k / H)%nat)) draws))))
         (map (fun d : nat * nat =>
                 [ (INR (fst d) + 5 / 10) / INR (shape0 (load_image raw));
                   (INR (snd d) + 5 / 10) / INR (shape1 (load_image raw)) ])
              (map (fun k => ((k mod H)%nat, (k / H)%nat)) draws)))
  = map (fun sk => sample_point H W noise (fst sk) (snd sk))
        (combine (seq 0 (length draws)) draws).
Proof.
  assert (Hs1 : shape1 (load_image raw) = W)
    by (apply (rect_shape1 H W 3 _ loaded_rect image_not_empty)).
  assert (Hs0 : shape0 (load_image raw) = H) by (apply (proj1 loaded_rect)).
  rewrite Hs0, Hs1, !length_map, map_map, combine_map_r, map_map.
  apply map_ext. intros [s k]. reflexivity.
Qed.

(** Without labels. *)
Lemma draw_samples_points :
  draw_samples raw draws noise false
  = Some (map (fun sk => sample_point H W noise (fst sk) (snd sk))
              (combine (seq 0 (length draws)) draws), None).
Proof.
  unfold draw_samples. rewrite choices_grid. cbn [bind].
  rewrite match_nonempty by (intros Hm; apply map_eq_nil in Hm; contradiction).
  cbn [bind]. rewrite samples_of_dots. reflexivity.
Qed.
Lemma loaded_height : length (load_image raw) = H.
Proof. exact (proj1 loaded_rect). Qed.

Lemma row_in_range y : (y < H)%nat -> (y < length (load_image raw))%nat.
Proof. intros Hy. rewrite loaded_height. exact Hy. Qed.

Lemma row_out_of_range y : (H <= y)%nat -> (length (load_image raw) <= y)%nat.
Proof. intros Hy. rewrite loaded_height. exact Hy. Qed.

Lemma loaded_row_length y :
  (y < H)%nat -> length (nth y (load_image raw) []) = W.
Proof.
  intros Hy. destruct loaded_rect as [HH Hrows]. rewrite Forall_forall in Hrows.
  apply (Hrows (nth y (load_image raw) [])), nth_In.
  unfold image, vec in *. rewrite HH. exact Hy.
Qed.

Lemma loaded_pixel_length y x :
  (y < H)%nat -> (x < W)%nat ->
  length (nth x (nth y (load_image raw) []) []) = 3%nat.
Proof.
  intros Hy Hx. destruct loaded_rect as [HH Hrows]. rewrite Forall_forall in Hrows.
  destruct (Hrows (nth y (load_image raw) [])) as [Hw Hpx].
  { apply nth_In. unfold image, vec in *. rewrite HH. exact Hy. }
  rewrite Forall_forall in Hpx. apply Hpx, nth_In.
  unfold image, vec in *. rewrite Hw. exact Hx.
Qed.

Lemma pixel_in_range y x :
  (y < H)%nat -> (x < W)%nat ->
  pixel (load_image raw) (x, y) = Some (nth x (nth y (load_image raw) []) []).
Proof.
  intros Hy Hx. unfold pixel. cbn [fst snd].
  rewrite (nth_error_nth' (load_image raw) []) by (exact (row_in_range y Hy)).
  cbn [bind]. apply nth_error_nth'. rewrite loaded_row_length by exact Hy. exact Hx.
Qed.

Lemma pixel_out_of_range y x :
  (H <= y)%nat \/ (W <= x)%nat -> pixel (load_image raw) (x, y) = None.
Proof.
  intros Hout. unfold pixel. cbn [fst snd].
  destruct (Nat.lt_ge_cases y H) as [Hy | Hy].
  - rewrite (nth_error_nth' (load_image raw) []) by (exact (row_in_range y Hy)).
    cbn [bind]. apply nth_error_None. rewrite loaded_row_length by exact Hy. lia.
  - assert (Hn : nth_error (load_image raw) y = None)
      by (apply nth_error_None; exact (row_out_of_range y Hy)).
    rewrite Hn. reflexivity.
Qed.

(** With labels, every pixel looked up being inside the image. *)
Lemma draw_samples_labelled :
  Forall (fun k => (k / H < H)%nat /\ (k mod H < W)%nat) draws ->
  draw_samples raw draws noise true
  = Some (map (fun sk => sample_point H W noise (fst sk) (snd sk))
              (combine (seq 0 (length draws)) draws),
          Some (map (fun k => nth (k mod H) (nth (k / H) (load_image raw) []) []) draws)).
Proof.
  intros Hin. unfold draw_samples. rewrite choices_grid. cbn [bind].
  rewrite match_nonempty by (intros Hm; apply map_eq_nil in Hm; contradiction).
  rewrite map_map.
  rewrite (sequence_map_some _
             (fun k => nth (k mod H) (nth (k / H) (load_image raw) []) []) draws).
  2:{ intros k Hk. rewrite Forall_forall in Hin. destruct (Hin k Hk) as [Hy Hx].
      cbv beta. apply pixel_in_range; assumption. }
  cbn [bind]. unfold reshape_n3.
  match goal with
  | |- context [forallb ?f ?l] => assert (H3 : forallb f l = true)
  end.
  { apply forallb_forall. intros l Hl. apply in_map_iff in Hl.
    destruct Hl as (k & <- & Hk). rewrite Forall_forall in Hin.
    destruct (Hin k Hk) as [Hy Hx]. apply Nat.eqb_eq, loaded_pixel_length; assumption. }
  rewrite H3. cbn [bind]. rewrite samples_of_dots. reflexivity.
Qed.

(** With labels, some pixel looked up being outside the image. *)
Lemma draw_samples_out_of_bounds k :
  In k draws -> (H <= k / H)%nat \/ (W <= k mod H)%nat ->
  draw_samples raw draws noise true = None.
Proof.
  intros Hk Hout. unfold draw_samples. rewrite choices_grid. cbn [bind].
  rewrite match_nonempty by (intros Hm; apply map_eq_nil in Hm; contradiction).
  rewrite map_map, sequence_none; [reflexivity|].
  apply in_map_iff. exists k. split; [|exact Hk].
  cbv beta. apply pixel_out_of_range, Hout.
Qed.

Lemma cell_in_unit_square k :
  (k < W * H)%nat ->
  0 < (INR (k mod H) + 5 / 10) / INR H < 1
  /\ 0 < (INR (k / H) + 5 / 10) / INR W < 1.
Proof.
  intros Hk. pose proof image_not_empty as H0.
  assert (W0 : W <> 0%nat) by (intros ->; lia).
  assert (Hq : (k / H < W)%nat) by (apply Nat.Div0.div_lt_upper_bound; lia).
  assert (Hm : (k mod H < H)%nat) by (apply Nat.mod_upper_bound, H0).
  assert (HH : 0 < INR H) by (apply lt_0_INR; lia).
  assert (HW : 0 < INR W) by (apply lt_0_INR; lia).
  assert (Hm' : INR (k mod H) + 1 <= INR H).
  { rewrite <- S_INR. apply le_INR. lia. }
  assert (Hq' : INR (k / H) + 1 <= INR W).
  { rewrite <- S_INR. apply le_INR. lia. }
  pose proof (pos_INR (k mod H)). pose proof (pos_INR (k / H)).
  assert (0 < / INR H) by (apply Rinv_0_lt_compat, HH).
  assert (0 < / INR W) by (apply Rinv_0_lt_compat, HW).
  unfold Rdiv. repeat split.
  - nra.
  - apply Rmult_lt_reg_r with (INR H); [exact HH|].
    rewrite Rmult_assoc, Rinv_l by lra. lra.
  - nra.
  - apply Rmult_lt_reg_r with (INR W); [exact HW|].
    rewrite Rmult_assoc, Rinv_l by lra. lra.
Qed.
End Draw.

Lemma sample_point_length H W noise s k : length (sample_point H W noise s k) = 2%nat.
Proof. reflexivity. Qed.

Lemma draw_samples_cells_core (raw : raw_image) (H W C : nat) (draws : list nat)
    (noise : nat -> nat -> R) :
  rect H W C raw -> byte_image raw -> (3 <= C)%nat ->
  vsum (ravel (gray (load_image raw))) <> 0 ->
  draws <> [] -> Forall (fun k => (k < W * H)%nat) draws ->
  exists dots,
    draw_samples raw draws noise false = Some (dots, None)
    /\ dots = map (fun sk => sample_point H W noise (fst sk) (snd sk))
                  (combine (seq 0 (length draws)) draws)
    /\ length dots = length draws
    /\ Forall (fun d => length d = 2%nat) dots
    /\ Forall (fun k => 0 < (INR (k mod H) + 5 / 10) / INR H < 1
                        /\ 0 < (INR (k / H) + 5 / 10) / INR W < 1) draws.
Proof.
  intros Hrect Hbytes HC Hink Hne Hrange.
  eexists. split; [apply (draw_samples_points raw H W C draws noise); assumption|].
  split; [reflexivity|]. split; [|split].
  - rewrite length_map, length_combine, length_seq. apply Nat.min_id.
  - rewrite Forall_map. apply Forall_forall. intros sk _. apply sample_point_length.
  - apply Forall_forall. intros k Hk.
    apply (cell_in_unit_square raw H W C draws Hrect HC Hne Hrange k).
    rewrite Forall_forall in Hrange. apply Hrange, Hk.
Qed.

(** X11. Without labels, on a rectangular image that is not white everywhere,
    [draw_samples] returns one point of the plane per draw: the centre of the
    drawn grid cell, which lies strictly inside the unit square, moved by the
    noise. *)
Theorem draw_samples_cells (raw : raw_image) (H W C : nat) (draws : list nat)
    (noise : nat -> nat -> R) :
  rect H W C raw -> byte_image raw -> (3 <= C)%nat ->
  vsum (ravel (gray (load_image raw))) <> 0 ->
  draws <> [] -> Forall (fun k => (k < W * H)%nat) draws ->
  exists dots,
    draw_samples raw draws noise false = Some (dots, None)
    /\ dots = map (fun sk => sample_point H W noise (fst sk) (snd sk))
                  (combine (seq 0 (length draws)) draws)
    /\ length dots = length draws
    /\ Forall (fun d => length d = 2%nat) dots
    /\ Forall (fun k => 0 < (INR (k mod H) + 5 / 10) / INR H < 1
                        /\ 0 < (INR (k / H) + 5 / 10) / INR W < 1) draws.
Proof. exact (draw_samples_cells_core raw H W C draws noise). Qed.

Lemma draw_samples_cells_witness :
  rect 1 1 3 [[[255; 0; 0]]]%Z
  /\ vsum (ravel (gray (load_image [[[255; 0; 0]]]%Z))) <> 0
  /\ Forall (fun k => (k < 1 * 1)%nat) [0%nat]
  /\ exists dots,
       draw_samples [[[255; 0; 0]]]%Z [0%nat] (fun _ _ => 0) false = Some (dots, None)
       /\ length dots = 1%nat.
Proof.
  assert (Hr : rect 1 1 3 [[[255; 0; 0]]]%Z) by (split; [reflexivity | repeat constructor]).
  assert (Hb : byte_image [[[255; 0; 0]]]%Z) by (repeat constructor; lia).
  assert (Hi : vsum (ravel (gray (load_image [[[255; 0; 0]]]%Z))) <> 0)
    by (unfold ravel, gray, load_image, vsum; simpl; lra).
  assert (Hd : Forall (fun k => (k < 1 * 1)%nat) [0%nat]) by (repeat constructor).
  split; [exact Hr|]. split; [exact Hi|]. split; [exact Hd|].
  destruct (draw_samples_cells [[[255; 0; 0]]]%Z 1 1 3 [0%nat] (fun _ _ => 0)
              Hr Hb (Nat.le_refl 3) Hi) as (dots & Hrun & _ & Hlen & _).
  - discriminate.
  - exact Hd.
  - exists dots. split; [exact Hrun | exact Hlen].
Defined.

Lemma dens_of_nth H W C (A : image) k :
  rect H W C A -> (k < H * W)%nat ->
  nth k (dens_of A) 0
  = vsum (map (fun a => 1 - a) (nth (k mod W) (nth (k / W) A []) []))
    / vsum (ravel (gray A)).
Proof.
  intros [HH Hrows] Hk.
  assert (W0 : W <> 0%nat) by (intros ->; lia).
  assert (Hq : (k / W < H)%nat) by (apply Nat.Div0.div_lt_upper_bound; lia).
  assert (Hm : (k mod W < W)%nat) by (apply Nat.mod_upper_bound, W0).
  assert (Hrow : length (nth (k / W) A []) = W).
  { rewrite Forall_forall in Hrows. apply (Hrows (nth (k / W) A [])), nth_In.
    unfold image, vec in *. rewrite HH. exact Hq. }
  apply nth_error_nth. unfold dens_of. rewrite nth_error_map.
  unfold ravel, gray at 2.
  rewrite (nth_error_concat_uniform _ W k).
  - rewrite nth_error_map.
    rewrite (nth_error_nth' A []) by (unfold image, vec in *; rewrite HH; exact Hq).
    cbn [option_map]. rewrite nth_error_map.
    rewrite (nth_error_nth' (nth (k / W) A []) [])
      by (unfold image, vec in *; rewrite Hrow; exact Hm).
    reflexivity.
  - rewrite Forall_map. eapply Forall_impl; [|exact Hrows].
    intros row [Hw _]. cbv beta. rewrite length_map. exact Hw.
  - exact W0.
Qed.

Lemma draw_samples_square_core (raw : raw_image) (S C : nat) (draws : list nat)
    (noise : nat -> nat -> R) :
  rect S S C raw -> byte_image raw -> (3 <= C)%nat ->
  vsum (ravel (gray (load_image raw))) <> 0 ->
  draws <> [] -> Forall (fun k => (k < S * S)%nat) draws ->
  exists dots labs,
    draw_samples raw draws noise true = Some (dots, Some labs)
    /\ dots = map (fun sk => sample_point S S noise (fst sk) (snd sk))
                  (combine (seq 0 (length draws)) draws)
    /\ labs = map (fun k => nth (k mod S) (nth (k / S) (load_image raw) []) []) draws
    /\ Forall (fun k =>
                 nth k (dens_of (load_image raw)) 0
                 = vsum (map (fun a => 1 - a)
                             (nth (k mod S) (nth (k / S) (load_image raw) []) []))
                   / vsum (ravel (gray (load_image raw)))) draws
    /\ length dots = length draws /\ length labs = length draws
    /\ Forall (fun d => length d = 2%nat) dots
    /\ Forall (fun l => length l = 3%nat) labs.
Proof.
  intros Hrect Hbytes HC Hink Hne Hrange.
  assert (S0 : S <> 0%nat).
  { destruct draws as [|k ds]; [congruence|]. inversion Hrange; subst. intros ->. lia. }
  assert (Hin : Forall (fun k => (k / S < S)%nat /\ (k mod S < S)%nat) draws).
  { eapply Forall_impl; [|exact Hrange]. intros k Hk. cbv beta in *. split.
    - apply Nat.Div0.div_lt_upper_bound; lia.
    - apply Nat.mod_upper_bound, S0. }
  pose proof (loaded_rect raw S S C Hrect Hbytes HC) as HA.
  eexists; eexists.
  split; [apply (draw_samples_labelled raw S S C draws noise); assumption|].
  split; [reflexivity|]. split; [reflexivity|]. split; [|split; [|split; [|split]]].
  - eapply Forall_impl; [|exact Hrange]. intros k Hk.
    apply (dens_of_nth S S 3 _ k HA Hk).
  - rewrite length_map, length_combine, length_seq. apply Nat.min_id.
  - apply length_map.
  - rewrite Forall_map. apply Forall_forall. intros sk _. apply sample_point_length.
  - rewrite Forall_map. rewrite Forall_forall in *. intros k Hk.
    destruct (Hin k Hk) as [Hy Hx].
    apply (loaded_pixel_length raw S S C Hrect Hbytes HC); assumption.
Qed.

(** X12. On a square image, a labelled sample is coherent: the draw [k] is
    weighted by the darkness of the pixel of row [k / S] and column
    [k mod S], gets the colour of that same pixel as its label, and is placed
    at the centre of that pixel's cell.  The call succeeds with one point of
    the plane and one label of size 3 per draw. *)
Theorem draw_samples_square (raw : raw_image) (S C : nat) (draws : list nat)
    (noise : nat -> nat -> R) :
  rect S S C raw -> byte_image raw -> (3 <= C)%nat ->
  vsum (ravel (gray (load_image raw))) <> 0 ->
  draws <> [] -> Forall (fun k => (k < S * S)%nat) draws ->
  exists dots labs,
    draw_samples raw draws noise true = Some (dots, Some labs)
    /\ dots = map (fun sk => sample_point S S noise (fst sk) (snd sk))
                  (combine (seq 0 (length draws)) draws)
    /\ labs = map (fun k => nth (k mod S) (nth (k / S) (load_image raw) []) []) draws
    /\ Forall (fun k =>
                 nth k (dens_of (load_image raw)) 0
                 = vsum (map (fun a => 1 - a)
                             (nth (k mod S) (nth (k / S) (load_image raw) []) []))
                   / vsum (ravel (gray (load_image raw)))) draws
    /\ length dots = length draws /\ length labs = length draws
    /\ Forall (fun d => length d = 2%nat) dots
    /\ Forall (fun l => length l = 3%nat) labs.
Proof. exact (draw_samples_square_core raw S C draws noise). Qed.

Lemma draw_samples_square_witness :
  rect 1 1 3 [[[255; 0; 0]]]%Z
  /\ vsum (ravel (gray (load_image [[[255; 0; 0]]]%Z))) <> 0
  /\ Forall (fun k => (k < 1 * 1)%nat) [0%nat]
  /\ exists dots labs,
       draw_samples [[[255; 0; 0]]]%Z [0%nat] (fun _ _ => 0) true = Some (dots, Some labs)
       /\ labs = map (fun k => nth (k mod 1)
                                 (nth (k / 1) (load_image [[[255; 0; 0]]]%Z) []) [])
                     [0%nat].
Proof.
  assert (Hr : rect 1 1 3 [[[255; 0; 0]]]%Z) by (split; [reflexivity | repeat constructor]).
  assert (Hb : byte_image [[[255; 0; 0]]]%Z) by (repeat constructor; lia).
  assert (Hi : vsum (ravel (gray (load_image [[[255; 0; 0]]]%Z))) <> 0)
    by (unfold ravel, gray, load_image, vsum; simpl; lra).
  assert (Hd : Forall (fun k => (k < 1 * 1)%nat) [0%nat]) by (repeat constructor).
  split; [exact Hr|]. split; [exact Hi|]. split; [exact Hd|].
  destruct (draw_samples_square [[[255; 0; 0]]]%Z 1 3 [0%nat] (fun _ _ => 0)
              Hr Hb (Nat.le_refl 3) Hi) as (dots & labs & Hrun & _ & Hlabs & _).
  - discriminate.
  - exact Hd.
  - exists dots, labs. split; [exact Hrun | exact Hlabs].
Defined.

(** X13. On an image that is not square a labelled draw can leave the image:
    the grid cell of the draw [k] is [(k mod H, k / H)] and its label is
    looked up at row [k / H] and column [k mod H]; when that row or column
    does not exist the lookup is an index error and [draw_samples] returns
    nothing. *)
Theorem draw_samples_out_of_image (raw : raw_image) (H W C : nat) (draws : list nat)
    (noise : nat -> nat -> R) (k : nat) :
  rect H W C raw -> byte_image raw -> (3 <= C)%nat ->
  vsum (ravel (gray (load_image raw))) <> 0 ->
  Forall (fun k => (k < W * H)%nat) draws ->
  In k draws -> (H <= k / H)%nat \/ (W <= k mod H)%nat ->
  draw_samples raw draws noise true = None.
Proof.
  intros Hrect Hbytes HC Hink Hrange Hk Hout.
  apply (draw_samples_out_of_bounds raw H W C draws noise Hrect Hbytes HC Hink) with k;
    try assumption.
  intros ->. contradiction.
Qed.

Lemma draw_samples_out_of_image_witness :
  rect 1 2 3 [[[255; 0; 0]; [0; 0; 255]]]%Z
  /\ vsum (ravel (gray (load_image [[[255; 0; 0]; [0; 0; 255]]]%Z))) <> 0
  /\ Forall (fun k => (k < 2 * 1)%nat) [1%nat]
  /\ (1 <= 1 / 1)%nat
  /\ draw_samples [[[255; 0; 0]; [0; 0; 255]]]%Z [1%nat] (fun _ _ => 0) true = None.
Proof.
  assert (Hr : rect 1 2 3 [[[255; 0; 0]; [0; 0; 255]]]%Z)
    by (split; [reflexivity | repeat constructor]).
  assert (Hb : byte_image [[[255; 0; 0]; [0; 0; 255]]]%Z) by (repeat constructor; lia).
  assert (Hi : vsum (ravel (gray (load_image [[[255; 0; 0]; [0; 0; 255]]]%Z))) <> 0)
    by (unfold ravel, gray, load_image, vsum; simpl; lra).
  assert (Hd : Forall (fun k => (k < 2 * 1)%nat) [1%nat]) by (repeat constructor).
  split; [exact Hr|]. split; [exact Hi|]. split; [exact Hd|].
  split; [simpl; lia|].
  apply (draw_samples_out_of_image [[[255; 0; 0]; [0; 0; 255]]]%Z 1 2 3 [1%nat]
           (fun _ _ => 0) 1 Hr Hb (Nat.le_refl 3) Hi Hd).
  - left. reflexivity.
  - left. simpl. lia.
Defined.


(** X15. The samples of the script fit its kernel: points drawn without labels
    from one image and points drawn with labels from a square image, with one
    potential per point, are data of the shape the kernel expects, and the
    label transfer on them returns one label of size 3 per point of the first
    cloud. *)
Theorem samples_fit_kernel (rawA rawB : raw_image) (H W CA S CB : nat)
    (drawsX drawsY : list nat) (noiseX noiseY : nat -> nat -> R) :
  rect H W CA rawA -> byte_image rawA -> (3 <= CA)%nat ->
  vsum (ravel (gray (load_image rawA))) <> 0 ->
  drawsX <> [] -> Forall (fun k => (k < W * H)%nat) drawsX ->
  rect S S CB rawB -> byte_image rawB -> (3 <= CB)%nat ->
  vsum (ravel (gray (load_image rawB))) <> 0 ->
  drawsY <> [] -> Forall (fun k => (k < S * S)%nat) drawsY ->
  exists X_i Y_j l_j,
    draw_samples rawA drawsX noiseX false = Some (X_i, None)
    /\ draw_samples rawB drawsY noiseY true = Some (Y_j, Some l_j)
    /\ forall E F G, length F = length drawsX -> length G = length drawsY ->
         well_shaped X_i Y_j F G l_j
         /\ exists labels_i,
              apply_transfer E X_i Y_j F G l_j (length drawsY) = Some labels_i
              /\ length labels_i = length drawsX
              /\ Forall (fun l => length l = 3%nat) labels_i.
Proof.
  intros HrA HbA HcA HiA HnA HdA HrB HbB HcB HiB HnB HdB.
  destruct (draw_samples_cells_core rawA H W CA drawsX noiseX HrA HbA HcA HiA HnA HdA)
    as (X_i & HX & _ & HlX & H2X & _).
  destruct (draw_samples_square_core rawB S CB drawsY noiseY HrB HbB HcB HiB HnB HdB)
    as (Y_j & l_j & HY & _ & _ & _ & HlY & Hll & H2Y & H3l).
  exists X_i, Y_j, l_j. split; [exact HX|]. split; [exact HY|].
  intros E F G HF HG.
  assert (WS : well_shaped X_i Y_j F G l_j).
  { constructor; auto; congruence. }
  split; [exact WS|].
  destruct (apply_transfer_shape_core E X_i Y_j F G l_j (length drawsY) WS)
    as (labels_i & Hrun & Hlen & H3).
  exists labels_i. split; [exact Hrun|]. split; [congruence | exact H3].
Qed.

Lemma samples_fit_kernel_witness :
  rect 1 1 3 [[[255; 0; 0]]]%Z
  /\ vsum (ravel (gray (load_image [[[255; 0; 0]]]%Z))) <> 0
  /\ exists X_i Y_j l_j,
       draw_samples [[[255; 0; 0]]]%Z [0%nat] (fun _ _ => 0) false = Some (X_i, None)
       /\ draw_samples [[[255; 0; 0]]]%Z [0%nat] (fun _ _ => 0) true
          = Some (Y_j, Some l_j)
       /\ well_shaped X_i Y_j [0] [0] l_j.
Proof.
  assert (Hr : rect 1 1 3 [[[255; 0; 0]]]%Z) by (split; [reflexivity | repeat constructor]).
  assert (Hb : byte_image [[[255; 0; 0]]]%Z) by (repeat constructor; lia).
  assert (Hi : vsum (ravel (gray (load_image [[[255; 0; 0]]]%Z))) <> 0)
    by (unfold ravel, gray, load_image, vsum; simpl; lra).
  assert (Hd : Forall (fun k => (k < 1 * 1)%nat) [0%nat]) by (repeat constructor).
  assert (Hn : [0%nat] <> []) by discriminate.
  split; [exact Hr|]. split; [exact Hi|].
  destruct (samples_fit_kernel [[[255; 0; 0]]]%Z [[[255; 0; 0]]]%Z 1 1 3 1 3
              [0%nat] [0%nat] (fun _ _ => 0) (fun _ _ => 0)
              Hr Hb (Nat.le_refl 3) Hi Hn Hd Hr Hb (Nat.le_refl 3) Hi Hn Hd)
    as (X_i & Y_j & l_j & HX & HY & Hfit).
  exists X_i, Y_j, l_j. split; [exact HX|]. split; [exact HY|].
  exact (proj1 (Hfit 1 [0] [0] eq_refl eq_refl)).
Defined.

(** X16. An error of the kernel stops the script: when the solver of the first
    run returns potentials that are not one per point, the script ends in
    that error; it returns no labels, and the second run does not take
    place. *)
Theorem main_stops_on_kernel_error
    (SamplesLoss : Script.SamplesLoss_args -> tensor -> tensor -> vec * vec)
    (use_cuda : bool) (X_i Y_j l_j : tensor) (w : Script.world) :
  length (fst (SamplesLoss Script.balanced_args X_i Y_j)) <> length X_i
  \/ length (snd (SamplesLoss Script.balanced_args X_i Y_j)) <> length Y_j
  \/ length l_j <> length Y_j ->
  Script.balanced_run SamplesLoss use_cuda X_i Y_j l_j w = None
  /\ Script.main SamplesLoss use_cuda X_i Y_j l_j w = None.
Proof.
  intros Hbad.
  assert (Hrun : Script.balanced_run SamplesLoss use_cuda X_i Y_j l_j w = None).
  { unfold Script.balanced_run.
    destruct (SamplesLoss Script.balanced_args X_i Y_j) as [F G]; cbn [fst snd] in Hbad.
    unfold Script.seq_io, Script.call_transfer.
    rewrite (transfer_size_mismatch_core _ _ _ _ _ _ Hbad). reflexivity. }
  split; [exact Hrun|].
  unfold Script.main, Script.seq_io. rewrite Hrun. reflexivity.
Qed.

Lemma main_stops_on_kernel_error_witness :
  length (fst ((fun (_ : Script.SamplesLoss_args) (_ _ : tensor) => ([0; 0], [0]))
                 Script.balanced_args [[0; 0]] [[0; 0]])) <> length [[0; 0]]
  /\ Script.main (fun _ _ _ => ([0; 0], [0])) false [[0; 0]] [[0; 0]] [[1; 0; 0]]
                 Script.start = None.
Proof.
  split; [simpl; lia|].
  apply (main_stops_on_kernel_error (fun _ _ _ => ([0; 0], [0])) false
           [[0; 0]] [[0; 0]] [[1; 0; 0]] Script.start).
  left. simpl. lia.
Defined.

Lemma row_sums_are_plan_masses_core E X Y F G L :
  well_shaped X Y F G L -> Forall (fun l => vsum l = 1) L ->
  exists labels_i,
    apply_transfer E X Y F G L (length Y) = Some labels_i
    /\ sum1 labels_i
       = map (fun i =>
                vsum (map (fun j => gibbs 2 E X Y F G i j) (seq 0 (length Y)))
                / INR (length Y))
             (seq 0 (length X)).
Proof.
  intros WS H1. unfold apply_transfer. rewrite (transfer_rows _ _ _ _ _ _ WS).
  cbn [option_map]. eexists; split; [reflexivity|].
  unfold sum1, tdiv. rewrite !map_map. apply map_ext. intros i.
  rewrite vsum_div. f_equal.
  rewrite vsum_vsum_list.
  2:{ rewrite Forall_map. apply Forall_forall. intros j Hj. apply in_seq in Hj.
      rewrite vscale_length. apply (length_L_j X Y F G L WS). lia. }
  rewrite map_map. f_equal. apply map_ext_in. intros j Hj. apply in_seq in Hj.
  rewrite vsum_vscale, gibbs_exponent.
  assert (Hl : vsum (nth j L []) = 1).
  { rewrite Forall_forall in H1. apply H1, nth_In.
    rewrite (ws_LY _ _ _ _ _ WS). lia. }
  rewrite Hl. ring.
Qed.

(** X17. For labels that each sum to 1, the sum of line [i] of the transferred
    labels does not depend on the labels: it is the mean over the columns of
    the Gibbs weights, [(1/M) . sum_j exp((F_i + G_j - C(x_i,y_j)) / E)]. *)
Theorem row_sums_are_plan_masses E X Y F G L :
  well_shaped X Y F G L -> Forall (fun l => vsum l = 1) L ->
  exists labels_i,
    apply_transfer E X Y F G L (length Y) = Some labels_i
    /\ sum1 labels_i
       = map (fun i =>
                vsum (map (fun j => gibbs 2 E X Y F G i j) (seq 0 (length Y)))
                / INR (length Y))
             (seq 0 (length X)).
Proof. exact (row_sums_are_plan_masses_core E X Y F G L). Qed.

Lemma row_sums_are_plan_masses_witness :
  well_shaped [[0; 0]] [[0; 0]] [0] [0] [[1; 0; 0]]
  /\ Forall (fun l => vsum l = 1) [[1; 0; 0]]
  /\ exists labels_i,
       apply_transfer 1 [[0; 0]] [[0; 0]] [0] [0] [[1; 0; 0]] 1 = Some labels_i
       /\ sum1 labels_i
          = map (fun i =>
                   vsum (map (fun j => gibbs 2 1 [[0; 0]] [[0; 0]] [0] [0] i j) (seq 0 1))
                   / INR 1)
                (seq 0 1).
Proof.
  assert (WS : well_shaped [[0; 0]] [[0; 0]] [0] [0] [[1; 0; 0]])
    by (constructor; repeat constructor).
  assert (H1 : Forall (fun l => vsum l = 1) [[1; 0; 0]])
    by (repeat constructor; unfold vsum; simpl; lra).
  split; [exact WS|]. split; [exact H1|].
  exact (row_sums_are_plan_masses 1 [[0; 0]] [[0; 0]] [0] [0] [[1; 0; 0]] WS H1).
Defined.

(** ** The loop of the solver *)






(** ** The softmin moves no more than the potential *)









(** ** Mass conservation with the solver of the specification *)













(** ** Without convergence *)




